(** * Schema synchronisation of sqlite_orm's [storage_t]

    A shallow embedding of the schema synchronisation code of
    [dev/storage.h] ([schema_status], [backup_table], [sync_schema],
    [sync_schema_simulate], [register_migration], [migrate_to]) together
    with the parts of the library these functions call, and the properties
    of these functions. *)

From Stdlib Require Import ZArith Lia.
From stdpp Require Import base option list strings pretty gmap fin_maps.

Local Open Scope Z_scope.

(** ** Data model *)

(** [sync_schema_result]: the six values [storage.h] assigns and returns. *)
Inductive sync_schema_result : Set :=
| already_in_sync
| new_table_created
| new_columns_added
| old_columns_removed
| new_columns_added_and_old_columns_removed
| dropped_and_recreated.

#[global] Instance sync_schema_result_eq_dec : EqDecision sync_schema_result.
Proof. solve_decision. Defined.

(** [basic_generated_always::storage_type]: [schema_status] only tests for
    [stored]; every other value is handled as a column that can be added. *)
Inductive storage_type : Set :=
| virtual_
| stored.

#[global] Instance storage_type_eq_dec : EqDecision storage_type.
Proof. solve_decision. Defined.

(** Modelled from the spec: the declaration of [table_xinfo] (a row of
    [PRAGMA table_xinfo]) is in [table_info.h]. [storage.h] reads its
    fields [name], [notnull], [dflt_value] and [hidden]; the declared type
    and the primary-key ordinal are the remaining fields the live-schema
    inspector reports. *)
Record table_xinfo : Set := mk_table_xinfo {
  name : string;
  type : string;
  notnull : bool;
  dflt_value : string;
  pk : Z;
  hidden : bool
}.

#[global] Instance table_xinfo_eq_dec : EqDecision table_xinfo.
Proof. solve_decision. Defined.

(** [column_t] of [column.h], reduced to what the schema code observes:
    [basic_column::name], the printed field type, [is_not_null()],
    [default_value()] (a string when a DEFAULT constraint exists),
    membership in the primary key and the storage of a GENERATED ALWAYS
    constraint ([is_generated()] holds when there is one). *)
Record column_t : Set := mk_column {
  column_name : string;
  field_type : string;
  is_not_null : bool;
  default_value : option string;
  is_primary_key : bool;
  generated_always : option storage_type
}.

Definition is_generated (c : column_t) : bool :=
  bool_decide (is_Some (generated_always c)).

(** Modelled from the spec: [table_t] is declared in [table.h]. The schema
    code uses its [name], its [elements] (here: the columns, in declaration
    order) and [is_without_rowid]. *)
Record table_t : Set := mk_table {
  table_name : string;
  elements : list column_t;
  is_without_rowid : bool
}.

(** Modelled from the spec: the table information of one declared column,
    in the shape of live introspection. *)
Definition column_info (c : column_t) : table_xinfo :=
  {| name := column_name c;
     type := field_type c;
     notnull := is_not_null c;
     dflt_value := default EmptyString (default_value c);
     pk := if is_primary_key c then 1 else 0;
     hidden := is_generated c |}.

(** Modelled from the spec: [table_t::get_table_info], the method that
    enumerates the declared columns in the shape of live introspection. *)
Definition get_table_info (t : table_t) : list table_xinfo :=
  column_info <$> elements t.

(** Modelled from the spec: [table_t::find_column_generated_storage_type],
    the generated-column specification of the declared column of that
    name, if it has one. *)
Definition find_column_generated_storage_type
    (t : table_t) (columnName : string) : option storage_type :=
  c ← list_find (λ c, column_name c = columnName) (elements t);
  generated_always c.2.

(** ** The database and the statements run against it *)

(** The statements the schema code builds as SQL text and hands to
    [perform_void_exec]. *)
Inductive statement : Set :=
| CreateTable (tableName : string) (columns : list column_t) (withoutRowid : bool)
| AlterTableAddColumn (tableName : string) (column : column_t)
| AlterTableDropColumn (tableName columnName : string)
| InsertSelect (destination source : string) (columnNames : list string)
| DropTable (tableName : string)
| AlterTableRenameTo (tableName newName : string).

(** The live state: for every table its columns as introspection reports
    them, the [user_version] pragma, and the statements run so far. *)
Record database : Type := mk_database {
  tables : gmap string (list table_xinfo);
  user_version : Z;
  journal : list statement
}.

Inductive orm_error_code : Set :=
| column_not_found
| value_is_null
| migration_not_found.

(** What a call can throw: a translated SQLite error of a failed statement,
    a [std::system_error] of the library, or the marker of a probing loop
    that was cut off by the fuel of [probe_backup_name]. *)
Inductive exception : Set :=
| sqlite_error (failed : statement)
| system_error (code : orm_error_code)
| out_of_fuel.

Inductive result (A : Type) : Type :=
| Ok (a : A)
| Throw (e : exception).
Arguments Ok {A} a.
Arguments Throw {A} e.

(** Code running on a connection: it returns or throws, and leaves the
    database in the state it reached (there is no rollback). *)
Definition M (A : Type) : Type := database → result A * database.

#[global] Instance M_ret : MRet M := λ A a d, (Ok a, d).

#[global] Instance M_bind : MBind M := λ A B k m d,
  match m d with
  | (Ok a, d') => k a d'
  | (Throw e, d') => (Throw e, d')
  end.

Fixpoint for_each {A} (f : A → M unit) (l : list A) : M unit :=
  match l with
  | [] => mret tt
  | a :: l' => _ ← f a; for_each f l'
  end.

(** Modelled from the spec: [storage_base::table_exists], the
    [table_exists(name)] of the connection layer. *)
Definition table_exists (d : database) (tableName : string) : bool :=
  bool_decide (is_Some (tables d !! tableName)).

(** Modelled from the spec: [pragma_t::table_xinfo], the
    [query_table_info(name)] of the connection layer; no rows for a table
    that does not exist. *)
Definition pragma_table_xinfo (d : database) (tableName : string)
    : list table_xinfo :=
  default [] (tables d !! tableName).

Definition has_column (columnName : string) (info : list table_xinfo) : bool :=
  bool_decide (columnName ∈ name <$> info).

(** Modelled from the spec: what SQLite does with a statement, at the level
    of table and column names. A table that was created reports the
    columns it was created with; a statement on a missing table, a creation
    or a rename onto an existing name, the addition of an existing column
    and the removal of a missing one fail. Rows, constraints and the
    checks SQLite makes on the columns themselves are not modelled: that a
    statement succeeds here does not say that SQLite accepts it. *)
Definition execute (st : statement) (tbls : gmap string (list table_xinfo))
    : option (gmap string (list table_xinfo)) :=
  match st with
  | CreateTable n cols _ =>
      match tbls !! n with
      | Some _ => None
      | None => Some (<[n := column_info <$> cols]> tbls)
      end
  | AlterTableAddColumn n c =>
      info ← tbls !! n;
      if has_column (column_name c) info then None
      else Some (<[n := info ++ [column_info c]]> tbls)
  | AlterTableDropColumn n cn =>
      info ← tbls !! n;
      if has_column cn info
      then Some (<[n := filter (λ i, name i ≠ cn) info]> tbls)
      else None
  | InsertSelect dst src cns =>
      dinfo ← tbls !! dst;
      sinfo ← tbls !! src;
      if forallb (λ cn, has_column cn dinfo && has_column cn sinfo) cns
      then Some tbls else None
  | DropTable n =>
      _ ← tbls !! n; Some (delete n tbls)
  | AlterTableRenameTo n n' =>
      info ← tbls !! n;
      match tbls !! n' with
      | Some _ => None
      | None => Some (<[n' := info]> (delete n tbls))
      end
  end.

(** Modelled from the spec: [perform_void_exec], the [execute_ddl(sql)] of
    the connection layer. A statement that fails throws and changes
    nothing; one that succeeds is added to the journal. *)
Definition perform_void_exec (st : statement) : M unit := λ d,
  match execute st (tables d) with
  | Some tbls =>
      (Ok tt, {| tables := tbls;
                 user_version := user_version d;
                 journal := journal d ++ [st] |})
  | None => (Throw (sqlite_error st), d)
  end.

(** ** [storage_t]: statements *)

Definition create_table (tableName : string) (tableImpl : table_t) : M unit :=
  perform_void_exec
    (CreateTable tableName (elements tableImpl) (is_without_rowid tableImpl)).

Definition drop_column (tableName columnName : string) : M unit :=
  perform_void_exec (AlterTableDropColumn tableName columnName).

Definition add_column (tableName : string) (column : column_t) : M unit :=
  perform_void_exec (AlterTableAddColumn tableName column).

(** Modelled from the spec: [storage_base::drop_table_internal]. *)
Definition drop_table_internal (tableName : string) : M unit :=
  perform_void_exec (DropTable tableName).

(** Modelled from the spec: [storage_base::rename_table]. *)
Definition rename_table (from to : string) : M unit :=
  perform_void_exec (AlterTableRenameTo from to).

(** Modelled from the spec: the columns [copy_table], which is declared in
    [storage.h] and defined elsewhere, copies: those present in both the
    live source table and the declared table, minus the ignored ones and
    minus generated columns (stored in the declaration, hidden in the live
    table). *)
Definition copy_column_names (tImpl : table_t) (sourceInfo : list table_xinfo)
    (columnsToIgnore : list table_xinfo) : list string :=
  column_name <$>
    filter (λ c,
      has_column (column_name c)
        (filter (λ i, hidden i = false) sourceInfo) = true
      ∧ has_column (column_name c) columnsToIgnore = false
      ∧ generated_always c ≠ Some stored) (elements tImpl).

(** Modelled from the spec: [copy_table], one INSERT INTO ... SELECT of
    these columns from the source table as the database has it. *)
Definition copy_table (sourceTableName destinationTableName : string)
    (tImpl : table_t) (columnsToIgnore : list table_xinfo) : M unit := λ d,
  perform_void_exec
    (InsertSelect destinationTableName sourceTableName
       (copy_column_names tImpl (pragma_table_xinfo d sourceTableName)
          columnsToIgnore)) d.

Definition drop_create_with_loss (tImpl : table_t) : M unit :=
  _ ← drop_table_internal (table_name tImpl);
  create_table (table_name tImpl) tImpl.

(** The [do ... while(true)] loop of [backup_table]: [suffix] counts up
    from the given value until [backupTableName] followed by its decimal
    form names no table. The loop has no bound of its own; [fuel] bounds
    the number of probes. *)
Fixpoint probe_backup_name (fuel : nat) (d : database)
    (backupTableName : string) (suffix : Z) : option string :=
  match fuel with
  | O => None
  | S fuel' =>
      let anotherBackupTableName := backupTableName +:+ pretty suffix in
      if negb (table_exists d anotherBackupTableName)
      then Some anotherBackupTableName
      else probe_backup_name fuel' d backupTableName (suffix + 1)
  end.

(** The name [backup_table] settles on. One probe more than there are
    tables is enough ([backup_table_name_total]). *)
Definition backup_table_name (d : database) (tableName : string)
    : option string :=
  let backupTableName := tableName +:+ "_backup" in
  if table_exists d backupTableName
  then probe_backup_name (S (size (tables d))) d backupTableName 1
  else Some backupTableName.

Definition backup_table (tableImpl : table_t)
    (columnsToIgnore : list table_xinfo) : M unit := λ d,
  match backup_table_name d (table_name tableImpl) with
  | None => (Throw out_of_fuel, d)
  | Some backupTableName =>
      (_ ← create_table backupTableName tableImpl;
       _ ← copy_table (table_name tableImpl) backupTableName tableImpl
             columnsToIgnore;
       _ ← drop_table_internal (table_name tableImpl);
       rename_table backupTableName (table_name tableImpl)) d
  end.

(** The statements of [backup_table], in the order of its calls. *)
Definition backup_statements (tableImpl : table_t)
    (columnsToIgnore : list table_xinfo) (d : database)
    (backupTableName : string) : list statement :=
  [CreateTable backupTableName (elements tableImpl)
     (is_without_rowid tableImpl);
   InsertSelect backupTableName (table_name tableImpl)
     (copy_column_names tableImpl
        (pragma_table_xinfo d (table_name tableImpl)) columnsToIgnore);
   DropTable (table_name tableImpl);
   AlterTableRenameTo backupTableName (table_name tableImpl)].

(** ** [storage_t::schema_status] *)

(** The loop of [schema_status] over [columnsToAdd]. It leaves with
    [gottaCreateTable] set at the first column that cannot be added: a
    column generated as [stored], or a column that is not generated, is
    NOT NULL and has no default value; only the latter writes [false]
    through [attempt_to_preserve]. The pointer is [None] when it is null,
    and else holds the value of the cell it points to. *)
Fixpoint columns_to_add_loop (tImpl : table_t)
    (columnsToAdd : list table_xinfo) (attempt_to_preserve : option bool)
    : bool * option bool :=
  match columnsToAdd with
  | [] => (false, attempt_to_preserve)
  | columnPointer :: rest =>
      match find_column_generated_storage_type tImpl (name columnPointer) with
      | Some generatedStorageType =>
          if decide (generatedStorageType = stored)
          then (true, attempt_to_preserve)
          else columns_to_add_loop tImpl rest attempt_to_preserve
      | None =>
          if notnull columnPointer
             && bool_decide (dflt_value columnPointer = EmptyString)
          then (true, (λ _, false) <$> attempt_to_preserve)
          else columns_to_add_loop tImpl rest attempt_to_preserve
      end
  end.

Section schema_status.

(** [SQLITE_VERSION_NUMBER >= 3035000]: DROP COLUMN exists. *)
Variable drop_column_supported : bool.

(** [storage_base::calculate_remove_add_columns], which is not defined in
    [storage.h]: it returns whether a column of both tables differs,
    fills [columnsToAdd], and leaves in [dbTableInfo] the columns that
    only the database has. *)
Variable calculate_remove_add_columns :
  list table_xinfo → list table_xinfo →
  bool * list table_xinfo * list table_xinfo.

(** The result, and the cell behind [attempt_to_preserve] on return. *)
Definition schema_status (tImpl : table_t) (d : database) (preserve : bool)
    (attempt_to_preserve : option bool)
    : sync_schema_result * option bool :=
  let attempt_to_preserve := (λ _, true) <$> attempt_to_preserve in
  let dbTableInfo := pragma_table_xinfo d (table_name tImpl) in
  let res := already_in_sync in
  let gottaCreateTable := negb (table_exists d (table_name tImpl)) in
  if negb gottaCreateTable then
    let storageTableInfo := get_table_info tImpl in
    let '(notEqual, columnsToAdd, dbTableInfo) :=
      calculate_remove_add_columns storageTableInfo dbTableInfo in
    let gottaCreateTable := if notEqual then true else gottaCreateTable in
    let '(res, gottaCreateTable) :=
      if negb gottaCreateTable then
        if negb (bool_decide (dbTableInfo = [])) then
          if negb preserve then
            if drop_column_supported
            then (old_columns_removed, gottaCreateTable)
            else (res, true)
          else (old_columns_removed, gottaCreateTable)
        else (res, gottaCreateTable)
      else (res, gottaCreateTable) in
    if gottaCreateTable then (dropped_and_recreated, attempt_to_preserve)
    else if negb (bool_decide (columnsToAdd = [])) then
      let '(gottaCreateTable, attempt_to_preserve) :=
        columns_to_add_loop tImpl columnsToAdd attempt_to_preserve in
      if negb gottaCreateTable then
        (if decide (res = old_columns_removed)
         then new_columns_added_and_old_columns_removed
         else new_columns_added, attempt_to_preserve)
      else (dropped_and_recreated, attempt_to_preserve)
    else
      (if decide (res ≠ old_columns_removed) then already_in_sync else res,
       attempt_to_preserve)
  else (new_table_created, attempt_to_preserve).

End schema_status.

(** ** The diff of a declared table against the live one *)

Record SchemaDiff : Set := mk_diff {
  to_add : list table_xinfo;
  extraneous : list table_xinfo;
  incompatible : bool
}.

(** The first column of that name. *)
Fixpoint find_column (info : list table_xinfo) (columnName : string)
    : option table_xinfo :=
  match info with
  | [] => None
  | i :: info' =>
      if decide (name i = columnName) then Some i
      else find_column info' columnName
  end.

(** Modelled from the spec: a column of both tables can stay when type,
    nullability, presence of a default and membership in the primary key
    agree. *)
Definition columns_compatible (declared live : table_xinfo) : bool :=
  bool_decide (type declared = type live)
  && bool_decide (notnull declared = notnull live)
  && bool_decide (dflt_value declared = EmptyString
                  ↔ dflt_value live = EmptyString)
  && bool_decide (pk declared ≠ 0 ↔ pk live ≠ 0).

Definition differs_from (other : list table_xinfo) (i : table_xinfo) : bool :=
  match find_column other (name i) with
  | Some o => negb (columns_compatible i o)
  | None => false
  end.

(** Modelled from the spec: the diff classifier, [classify(declared, live)].
    A declared column without a live column of its name is to add; one with
    a live column that differs makes the tables incompatible; a live column
    without a declared column of its name is extraneous, unless it is
    hidden and a declared generated column has its name. *)
Definition classify (declared live : list table_xinfo) : SchemaDiff :=
  {| to_add := filter (λ c, find_column live (name c) = None) declared;
     extraneous :=
       filter (λ l, find_column declared (name l) = None
                    ∧ ¬ (hidden l = true
                         ∧ Exists (λ c, name c = name l ∧ hidden c = true)
                             declared)) live;
     incompatible := existsb (differs_from live) declared |}.

(** Modelled from the spec: [storage_base::calculate_remove_add_columns]
    as the diff classifier: the result is [incompatible], [columnsToAdd]
    receives [to_add] and [dbTableInfo] is left with [extraneous]. *)
Definition calculate_remove_add_columns
    (storageTableInfo dbTableInfo : list table_xinfo)
    : bool * list table_xinfo * list table_xinfo :=
  let diff := classify storageTableInfo dbTableInfo in
  (incompatible diff, to_add diff, extraneous diff).

(** The declared and the live table agree: the diff is empty. *)
Definition synced (declared live : list table_xinfo) : Prop :=
  classify declared live = mk_diff [] [] false.

(** The live columns that differ from the declared column of their name. *)
Definition incompatible_columns (declared live : list table_xinfo)
    : list table_xinfo :=
  filter (λ l, differs_from declared l = true) live.

(** The statement changes at most the table of that name. *)
Definition statement_on (tableName : string) (st : statement) : Prop :=
  match st with
  | CreateTable n _ _ | AlterTableAddColumn n _
  | AlterTableDropColumn n _ | DropTable n => n = tableName
  | InsertSelect _ _ _ => True
  | AlterTableRenameTo _ _ => False
  end.

(** ** [sync_table], [sync_schema] and [sync_schema_simulate] *)

(** [std::map::insert]: an existing entry is kept. *)
Definition map_insert {V} (k : string) (v : V) (m : gmap string V)
    : gmap string V :=
  match m !! k with
  | Some _ => m
  | None => <[k := v]> m
  end.

Section sync_schema.

Variable drop_column_supported : bool.

(** One ALTER TABLE ... ADD COLUMN for every declared column that is to
    add, in declaration order. *)
Definition add_columns (tImpl : table_t) (columnsToAdd : list table_xinfo)
    : M unit :=
  for_each (add_column (table_name tImpl))
    (filter (λ c, has_column (column_name c) columnsToAdd = true)
       (elements tImpl)).

(** One ALTER TABLE ... DROP COLUMN for every extraneous column. *)
Definition drop_columns (tableName : string) (columns : list table_xinfo)
    : M unit :=
  for_each (λ i, drop_column tableName (name i)) columns.

(** Modelled from the spec: [sync_table] for a table is declared in
    [storage.h] and defined elsewhere. It is the planner in apply mode:
    the classification is that of [schema_status], called with the
    address of an [attempt_to_preserve] flag, and the action is the one
    the planner selects for it: create; add columns; drop columns, or
    backup-copy-rename ignoring the extraneous columns when data is to be
    preserved; recreate, with backup when [preserve] is requested and not
    marked impossible, and else with loss. A recreation takes pending
    additions with it. Preservation counts as marked impossible when
    [schema_status] has left [false] in the flag, which is an assumption
    on the caller of [schema_status]: for a stored column to add the
    planner is described as recreating with loss, while the flag stays
    set. Only the choice between the two recreations depends on it. *)
Definition sync_table (tImpl : table_t) (preserve : bool)
    : M sync_schema_result := λ d,
  let '(schema_stat, attempt_to_preserve) :=
    schema_status drop_column_supported calculate_remove_add_columns
      tImpl d preserve (Some true) in
  let storageTableInfo := get_table_info tImpl in
  let dbTableInfo := pragma_table_xinfo d (table_name tImpl) in
  let diff := classify storageTableInfo dbTableInfo in
  (_ ← match schema_stat with
       | already_in_sync => mret tt
       | new_table_created => create_table (table_name tImpl) tImpl
       | new_columns_added => add_columns tImpl (to_add diff)
       | old_columns_removed =>
           if preserve then backup_table tImpl (extraneous diff)
           else drop_columns (table_name tImpl) (extraneous diff)
       | new_columns_added_and_old_columns_removed =>
           if preserve then backup_table tImpl (extraneous diff)
           else (_ ← drop_columns (table_name tImpl) (extraneous diff);
                 add_columns tImpl (to_add diff))
       | dropped_and_recreated =>
           if preserve && bool_decide (attempt_to_preserve = Some true)
           then backup_table tImpl
                  (extraneous diff
                   ++ incompatible_columns storageTableInfo dbTableInfo)
           else drop_create_with_loss tImpl
       end;
   mret schema_stat) d.

(** Modelled from the spec: [storage_impl::for_each] is not defined in
    [storage.h]; tables are processed one after the other, and [impl] is
    the list of the tables in the order in which they are visited. The body
    is the lambda of [sync_schema], with the [result] map built so far. The
    storage is one of tables: the four-argument call of [schema_status] in
    [sync_schema_simulate] has no overload for an index or a trigger. *)
Fixpoint sync_schema_for_each (impl : list table_t) (preserve : bool)
    (result : gmap string sync_schema_result)
    : M (gmap string sync_schema_result) :=
  match impl with
  | [] => mret result
  | storageImpl :: impl' =>
      res ← sync_table storageImpl preserve;
      sync_schema_for_each impl' preserve
        (map_insert (table_name storageImpl) res result)
  end.

Definition sync_schema (impl : list table_t) (preserve : bool)
    : M (gmap string sync_schema_result) :=
  sync_schema_for_each impl preserve ∅.

(** Modelled from the spec: [storage_impl::for_each] as above, [impl]
    being the tables in the order in which they are visited. The body is
    the lambda of [sync_schema_simulate]. *)
Fixpoint sync_schema_simulate_for_each (impl : list table_t)
    (preserve : bool) (result : gmap string sync_schema_result)
    : M (gmap string sync_schema_result) :=
  match impl with
  | [] => mret result
  | tableImpl :: impl' =>
      schemaStatus ← (λ d,
        (Ok (schema_status drop_column_supported
               calculate_remove_add_columns tableImpl d preserve None).1,
         d));
      sync_schema_simulate_for_each impl' preserve
        (map_insert (table_name tableImpl) schemaStatus result)
  end.

Definition sync_schema_simulate (impl : list table_t) (preserve : bool)
    : M (gmap string sync_schema_result) :=
  sync_schema_simulate_for_each impl preserve ∅.

End sync_schema.

(** ** Migrations *)

(** Modelled from the spec: [connection_container] wraps the connection
    of the storage it is built from; the connection is named by the file
    of the database. *)
Record connection_container : Set := mk_connection_container {
  connection : string
}.

(** [std::function<void(const connection_container&)>]: code that runs on
    the connection it is given. *)
Definition migration_t : Type := connection_container → M unit.

(** The fields of [storage_t] the migration code uses: the connection (as
    the file name of [storage_base]), the state of the database behind it,
    and the [migrations] map. *)
Record storage_t : Type := mk_storage {
  filename : string;
  migrations : gmap (Z * Z) migration_t;
  db : database
}.

Definition register_migration (from to : Z) (migration : migration_t)
    (s : storage_t) : storage_t :=
  let key := (from, to) in
  {| filename := filename s;
     migrations := <[key := migration]> (migrations s);
     db := db s |}.

Definition migrate_to (to : Z) (s : storage_t) : result unit * storage_t :=
  let currentVersion := user_version (db s) in
  let key := (currentVersion, to) in
  match migrations s !! key with
  | Some migration =>
      let connectionContainer := mk_connection_container (filename s) in
      let '(r, d) := migration connectionContainer (db s) in
      (r, {| filename := filename s; migrations := migrations s; db := d |})
  | None => (Throw (system_error migration_not_found), s)
  end.

(** What SQLite guarantees of every table: no two columns of one name. *)
Definition unique_columns (d : database) : Prop :=
  map_Forall (λ _ live, NoDup (name <$> live)) (tables d).

#[global] Instance unique_columns_dec d : Decision (unique_columns d).
Proof. unfold unique_columns. apply _. Defined.

(** ** The two ways a column to add forces a recreation *)

Definition cannot_be_added_stored (tImpl : table_t) (c : table_xinfo)
    : Prop :=
  find_column_generated_storage_type tImpl (name c) = Some stored.

Definition cannot_be_added_not_null (tImpl : table_t) (c : table_xinfo)
    : Prop :=
  find_column_generated_storage_type tImpl (name c) = None
  ∧ notnull c = true ∧ dflt_value c = EmptyString.

(** ** Example storages *)

Definition id_column : column_t :=
  mk_column "id" "INTEGER" true None true None.

Definition name_column : column_t :=
  mk_column "name" "TEXT" true None false None.

Definition age_column : column_t :=
  mk_column "age" "INTEGER" false None false None.

Definition legacy_column : column_t :=
  mk_column "legacy" "TEXT" false None false None.

(** [total] is GENERATED ALWAYS AS (...) STORED. *)
Definition total_column : column_t :=
  mk_column "total" "INTEGER" false None false (Some stored).

Definition users : table_t :=
  mk_table "users" [id_column; name_column; age_column] false.

Definition invoices : table_t :=
  mk_table "invoices" [id_column; total_column] false.

(** [points] is a second declaration under the name of [users]. *)
Definition points : table_t :=
  mk_table "users" [id_column; legacy_column] false.

Definition database_of (tbls : list (string * list column_t)) : database :=
  mk_database
    (list_to_map ((λ t : string * list column_t, (t.1, column_info <$> t.2))
                    <$> tbls)) 0 [].

(** [users] was created without its columns [name] and [age]; [invoices]
    without [total]. *)
Definition old_database : database :=
  database_of [("users", [id_column]); ("invoices", [id_column])].

(** [users] has the column [legacy], which is not declared. *)
Definition legacy_database : database :=
  database_of [("users", [id_column; name_column; age_column; legacy_column])].

(** [users] with two backup tables left behind. *)
Definition crowded_database : database :=
  database_of [("users", [id_column; name_column; age_column; legacy_column]);
               ("users_backup", [id_column]);
               ("users_backup1", [id_column])].

Definition empty_database : database := database_of [].

Definition drop_legacy : migration_t :=
  λ _, perform_void_exec (AlterTableDropColumn "users" "legacy").

Definition create_invoices : migration_t :=
  λ _, create_table "invoices" invoices.

(** A migration that throws the error of a missing migration itself, as
    one that calls [migrate_to] for a pair that is not registered does. *)
Definition nested_migration : migration_t :=
  λ _ d, (Throw (system_error migration_not_found), d).

Definition example_storage : storage_t :=
  mk_storage "db.sqlite" {[ (0, 1) := drop_legacy ]} legacy_database.

(** ** Further functions of [storage_t] *)

(** [add_generated_cols]: the loop over [storageTableInfo] appends every
    hidden column to [columnsToAdd]. *)
Fixpoint add_generated_cols (columnsToAdd storageTableInfo : list table_xinfo)
    : list table_xinfo :=
  match storageTableInfo with
  | [] => columnsToAdd
  | storageColumnInfo :: rest =>
      add_generated_cols
        (if hidden storageColumnInfo
         then columnsToAdd ++ [storageColumnInfo]
         else columnsToAdd) rest
  end.

(** A column to add that [schema_status] lets through. *)
Definition can_be_added (tImpl : table_t) (c : table_xinfo) : Prop :=
  ¬ cannot_be_added_stored tImpl c ∧ ¬ cannot_be_added_not_null tImpl c.

(** Code that leaves [user_version] as it is, whether it returns or
    throws. *)
Definition keeps_user_version {A} (m : M A) : Prop :=
  ∀ d, user_version (m d).2 = user_version d.

(** [rename_table<O>] and [tablename<O>]: the schema information of the
    storage, without the database. The mapped type [O] is given by the
    position of its table in the storage; [assert_mapped_type<O>] makes a
    type without table a compile error, here a position without table,
    where [tablename] has no value and [rename_table] changes nothing. *)
Module mapped.

Definition rename_table (o : nat) (name : string) (impl : list table_t)
    : list table_t :=
  alter (λ tImpl, mk_table name (elements tImpl) (is_without_rowid tImpl))
    o impl.

Definition tablename (o : nat) (impl : list table_t) : option string :=
  table_name <$> impl !! o.

End mapped.

(** [register_migration] called for every entry of a list, first to
    last. *)
Definition register_migrations (registrations : list (Z * Z * migration_t))
    (s : storage_t) : storage_t :=
  foldl (λ s r, register_migration r.1.1 r.1.2 r.2 s) s registrations.

(** [users] as declared. *)
Definition synced_database : database :=
  database_of [("users", [id_column; name_column; age_column])].

(** [users] with its column [name] of another type. *)
Definition retyped_database : database :=
  database_of [("users", [id_column;
                          mk_column "name" "INTEGER" true None false None;
                          age_column])].

(** A binder that accepts every value, a step that succeeds and the row id
    of a table that had no row. *)
Definition binds_all : Z → string → column_t → bool := λ _ _ _, true.

Definition steps : list (Z * string * column_t) → bool := λ _, true.

Definition first_rowid : list (Z * string * column_t) → Z := λ _, 1.

(** ** [execute] of replace, insert and update: the bound parameters *)

(** A prepared statement while its parameters are bound: the [index] the
    next parameter gets and the parameters bound so far, each with its
    index, the object and the column whose field is its value. *)
Record stmt_t (O : Type) : Type := mk_stmt {
  index : Z;
  bound : list (Z * O * column_t)
}.
Arguments mk_stmt {O} index bound.
Arguments index {O} s.
Arguments bound {O} s.

Section execute.

Context {O : Type}.

(** [statement_binder<field_type>{}.bind(stmt, index, value)] returns
    [SQLITE_OK]: taken as it comes. *)
Variable bind : Z → O → column_t → bool.

(** [perform_step(stmt)] returns rather than throws. *)
Variable perform_step : list (Z * O * column_t) → bool.

(** [sqlite3_last_insert_rowid(db)] after the step. *)
Variable last_insert_rowid : list (Z * O * column_t) → Z.

(** The [if(SQLITE_OK != ...bind(stmt, index++, ...)) throw...] of every
    [execute]: [false] when it throws. *)
Definition bind_field (object : O) (column : column_t) (stmt : stmt_t O)
    : bool * stmt_t O :=
  if bind (index stmt) object column
  then (true, mk_stmt (index stmt + 1)
                (bound stmt ++ [(index stmt, object, column)]))
  else (false, mk_stmt (index stmt + 1) (bound stmt)).

(** [table.for_each_column] with a body that may throw. *)
Fixpoint for_each_column
    (f : column_t → stmt_t O → bool * stmt_t O)
    (columns : list column_t) (stmt : stmt_t O) : bool * stmt_t O :=
  match columns with
  | [] => (true, stmt)
  | column :: columns' =>
      let '(ok, stmt') := f column stmt in
      if ok then for_each_column f columns' stmt' else (false, stmt')
  end.

(** [std::for_each] over a range, with a body that may throw. *)
Fixpoint std_for_each {A}
    (f : A → stmt_t O → bool * stmt_t O)
    (range : list A) (stmt : stmt_t O) : bool * stmt_t O :=
  match range with
  | [] => (true, stmt)
  | object :: range' =>
      let '(ok, stmt') := f object stmt in
      if ok then std_for_each f range' stmt' else (false, stmt')
  end.

(** [processObject] of the replace [execute]. *)
Definition replace_process_object (tImpl : table_t) (object : O)
    : stmt_t O → bool * stmt_t O :=
  for_each_column
    (λ column stmt,
       if is_generated column then (true, stmt)
       else bind_field object column stmt)
    (elements tImpl).

(** [execute] of a replace of one object: whether it returns, and the
    statement as it leaves it. *)
Definition execute_replace (tImpl : table_t) (o : O) : bool * stmt_t O :=
  let index := 1 in
  let '(ok, stmt) := replace_process_object tImpl o (mk_stmt index []) in
  if ok then (perform_step (bound stmt), stmt) else (false, stmt).

(** [execute] of a replace of a range of objects. *)
Definition execute_replace_range {A} (tImpl : table_t) (transformer : A → O)
    (range : list A) : bool * stmt_t O :=
  let index := 1 in
  let '(ok, stmt) :=
    std_for_each
      (λ object, replace_process_object tImpl (transformer object))
      range (mk_stmt index []) in
  if ok then (perform_step (bound stmt), stmt) else (false, stmt).

(** [processObject] of the insert [execute]. *)
Definition insert_process_object (tImpl : table_t) (object : O)
    : stmt_t O → bool * stmt_t O :=
  for_each_column
    (λ column stmt,
       if is_without_rowid tImpl
          || (negb (is_primary_key column) && negb (is_generated column))
       then bind_field object column stmt
       else (true, stmt))
    (elements tImpl).

(** [execute] of an insert of one object: the row id it returns, if it
    returns. *)
Definition execute_insert (tImpl : table_t) (o : O) : option Z * stmt_t O :=
  let index := 1 in
  let '(ok, stmt) := insert_process_object tImpl o (mk_stmt index []) in
  if ok && perform_step (bound stmt)
  then (Some (last_insert_rowid (bound stmt)), stmt)
  else (None, stmt).

(** [execute] of an insert of a range of objects. *)
Definition execute_insert_range {A} (tImpl : table_t) (transformer : A → O)
    (range : list A) : option Z * stmt_t O :=
  let index := 1 in
  let '(ok, stmt) :=
    std_for_each
      (λ object, insert_process_object tImpl (transformer object))
      range (mk_stmt index []) in
  if ok && perform_step (bound stmt)
  then (Some (last_insert_rowid (bound stmt)), stmt)
  else (None, stmt).

(** [execute] of an update: one pass over the columns for the values to
    set, a second one for the key. *)
Definition execute_update (tImpl : table_t) (o : O) : bool * stmt_t O :=
  let index := 1 in
  let '(ok, stmt) :=
    for_each_column
      (λ column stmt,
         if negb (is_primary_key column) && negb (is_generated column)
         then bind_field o column stmt
         else (true, stmt))
      (elements tImpl) (mk_stmt index []) in
  if ok then
    let '(ok, stmt) :=
      for_each_column
        (λ column stmt,
           if is_primary_key column
           then bind_field o column stmt
           else (true, stmt))
        (elements tImpl) stmt in
    if ok then (perform_step (bound stmt), stmt) else (false, stmt)
  else (false, stmt).

(** Binding the fields of a list of objects and columns in order, up to
    the first one that fails: what the loops above come to. *)
Fixpoint bind_sequence (fields : list (O * column_t)) (stmt : stmt_t O)
    : bool * stmt_t O :=
  match fields with
  | [] => (true, stmt)
  | field :: fields' =>
      let '(ok, stmt') := bind_field field.1 field.2 stmt in
      if ok then bind_sequence fields' stmt' else (false, stmt')
  end.

(** The fields with the indexes they get in order, from [first] on. *)
Definition numbered (first : Z) (fields : list (O * column_t))
    : list (Z * O * column_t) :=
  imap (λ i field, (first + Z.of_nat i, field.1, field.2)) fields.

(** The fields a statement binds are the first [k] of [fields], at the
    indexes 1, 2, ...: all of them, or those before the first whose [bind]
    fails. *)
Definition binds_prefix (fields : list (O * column_t)) (ok : bool)
    (stmt : stmt_t O) : Prop :=
  ∃ k : nat,
    (k ≤ length fields)%nat
    ∧ bound stmt = numbered 1 (take k fields)
    ∧ (ok = true ↔ k = length fields)
    ∧ (∀ i field, (i < k)%nat → fields !! i = Some field →
         bind (1 + Z.of_nat i) field.1 field.2 = true)
    ∧ (∀ field, fields !! k = Some field →
         bind (1 + Z.of_nat k) field.1 field.2 = false).

(** The columns each statement binds for an object. *)
Definition replace_columns (tImpl : table_t) : list column_t :=
  filter (λ c, is_generated c = false) (elements tImpl).

Definition insert_columns (tImpl : table_t) : list column_t :=
  filter (λ c, is_without_rowid tImpl = true
               ∨ (is_primary_key c = false ∧ is_generated c = false))
    (elements tImpl).

Definition update_set_columns (tImpl : table_t) : list column_t :=
  filter (λ c, is_primary_key c = false ∧ is_generated c = false)
    (elements tImpl).

Definition update_key_columns (tImpl : table_t) : list column_t :=
  filter (λ c, is_primary_key c = true) (elements tImpl).

End execute.

(** * Properties *)

(** ** The loop over the columns to add *)

Lemma columns_to_add_loop_stored tImpl columnsToAdd cell c :
  c ∈ columnsToAdd → cannot_be_added_stored tImpl c →
  (columns_to_add_loop tImpl columnsToAdd cell).1 = true.
Proof.
  unfold cannot_be_added_stored.
  induction columnsToAdd as [|c' rest IH]; intros Hin Hc.
  - by apply elem_of_nil in Hin.
  - simpl. apply elem_of_cons in Hin as [<-|Hin].
    + rewrite Hc. by rewrite decide_True.
    + destruct (find_column_generated_storage_type tImpl (name c')) as [g|].
      * case_decide; [done|]. by apply IH.
      * destruct (notnull c' && _); [done|]. by apply IH.
Qed.

Lemma columns_to_add_loop_not_null tImpl columnsToAdd cell c :
  c ∈ columnsToAdd → cannot_be_added_not_null tImpl c →
  (columns_to_add_loop tImpl columnsToAdd cell).1 = true.
Proof.
  unfold cannot_be_added_not_null.
  induction columnsToAdd as [|c' rest IH]; intros Hin (Hg & Hn & Hd).
  - by apply elem_of_nil in Hin.
  - simpl. apply elem_of_cons in Hin as [<-|Hin].
    + rewrite Hg, Hn, bool_decide_eq_true_2; done.
    + destruct (find_column_generated_storage_type tImpl (name c')) as [g|].
      * case_decide; [done|]. by apply IH.
      * destruct (notnull c' && _); [done|]. by apply IH.
Qed.

(** Only a NOT NULL column without default writes through the pointer. *)
Lemma columns_to_add_loop_keeps_flag tImpl columnsToAdd cell :
  (∀ c, c ∈ columnsToAdd → ¬ cannot_be_added_not_null tImpl c) →
  (columns_to_add_loop tImpl columnsToAdd cell).2 = cell.
Proof.
  unfold cannot_be_added_not_null.
  induction columnsToAdd as [|c' rest IH]; intros Hno; [done|].
  simpl.
  destruct (find_column_generated_storage_type tImpl (name c')) as [g|] eqn:Hg.
  - case_decide; [done|]. apply IH. intros c Hc. apply Hno. by right.
  - destruct (notnull c') eqn:Hn; simpl.
    + case_bool_decide as Hd.
      * exfalso. apply (Hno c'); [by left|done].
      * apply IH. intros c Hc. apply Hno. by right.
    + apply IH. intros c Hc. apply Hno. by right.
Qed.

Lemma columns_to_add_loop_clears_flag tImpl columnsToAdd cell c :
  c ∈ columnsToAdd → cannot_be_added_not_null tImpl c →
  (∀ c', c' ∈ columnsToAdd → ¬ cannot_be_added_stored tImpl c') →
  columns_to_add_loop tImpl columnsToAdd cell = (true, (λ _, false) <$> cell).
Proof.
  unfold cannot_be_added_not_null, cannot_be_added_stored.
  induction columnsToAdd as [|c' rest IH]; intros Hin (Hg & Hn & Hd) Hno.
  - by apply elem_of_nil in Hin.
  - simpl. apply elem_of_cons in Hin as [<-|Hin].
    + rewrite Hg, Hn, bool_decide_eq_true_2; done.
    + destruct (find_column_generated_storage_type tImpl (name c')) as [g|] eqn:Hg'.
      * case_decide as Hst.
        { subst g. exfalso. apply (Hno c'); [by left|done]. }
        apply IH; [done..|]. intros c'' Hc''. apply Hno. by right.
      * destruct (notnull c' && _); [done|].
        apply IH; [done..|]. intros c'' Hc''. apply Hno. by right.
Qed.

(** ** [schema_status] on a table that exists *)

Section schema_status_facts.

Variable drop_column_supported : bool.
Variable calc :
  list table_xinfo → list table_xinfo →
  bool * list table_xinfo * list table_xinfo.

Local Abbreviation status := (schema_status drop_column_supported calc).

(** The value set through [attempt_to_preserve] does not depend on what
    the cell held, and the result does not depend on the pointer. *)
Lemma schema_status_result_pointer tImpl d preserve cell cell' :
  (status tImpl d preserve cell).1 = (status tImpl d preserve cell').1.
Proof.
  unfold schema_status.
  destruct (table_exists d (table_name tImpl)); simpl; [|done].
  destruct (calc _ _) as [[ne toAdd] rest].
  destruct ne; simpl; [done|].
  destruct (bool_decide (rest = [])), preserve, drop_column_supported;
    simpl; try done;
    destruct (bool_decide (toAdd = [])); simpl; try done;
    generalize ((λ _ : bool, true) <$> cell), ((λ _ : bool, true) <$> cell');
    intros o o';
    assert ((columns_to_add_loop tImpl toAdd o).1
            = (columns_to_add_loop tImpl toAdd o').1) as Hl
      by (clear; induction toAdd as [|c r IH]; simpl; [done|];
          destruct (find_column_generated_storage_type tImpl (name c));
          [case_decide; done | destruct (notnull c && _); done]);
    destruct (columns_to_add_loop tImpl toAdd o) as [g1 a1],
             (columns_to_add_loop tImpl toAdd o') as [g2 a2];
    simpl in Hl; subst g2; destruct g1; done.
Qed.

(** C2 (as amended): on a table that exists, a column to add that is
    generated as stored makes the result [dropped_and_recreated]; that
    column does not write through [attempt_to_preserve]: unless some
    column to add is an ordinary NOT NULL column without default, the
    flag is left set. *)
Theorem schema_status_stored_column_to_add
    tImpl d preserve cell notEqual columnsToAdd dbTableInfo c :
  table_exists d (table_name tImpl) = true →
  calc (get_table_info tImpl) (pragma_table_xinfo d (table_name tImpl))
    = (notEqual, columnsToAdd, dbTableInfo) →
  c ∈ columnsToAdd →
  find_column_generated_storage_type tImpl (name c) = Some stored →
  (status tImpl d preserve cell).1 = dropped_and_recreated
  ∧ ((∀ c', c' ∈ columnsToAdd → ¬ cannot_be_added_not_null tImpl c') →
     (status tImpl d preserve cell).2 = (λ _, true) <$> cell).
Proof.
  intros Hex Hcalc Hin Hst. unfold schema_status. rewrite Hex, Hcalc. simpl.
  assert (bool_decide (columnsToAdd = []) = false) as Hne.
  { apply bool_decide_eq_false. intros ->. by apply elem_of_nil in Hin. }
  pose proof (columns_to_add_loop_stored tImpl columnsToAdd
                ((λ _, true) <$> cell) c Hin Hst) as Hloop.
  split.
  - destruct notEqual; simpl; [done|].
    destruct (bool_decide (dbTableInfo = [])), preserve,
      drop_column_supported; simpl; try done; rewrite Hne; simpl;
      destruct (columns_to_add_loop _ _ _) as [g a]; simpl in *;
      by subst g.
  - intros Hno.
    pose proof (columns_to_add_loop_keeps_flag tImpl columnsToAdd
                  ((λ _, true) <$> cell) Hno) as Hflag.
    destruct notEqual; simpl; [done|].
    destruct (bool_decide (dbTableInfo = [])), preserve,
      drop_column_supported; simpl; try done; rewrite Hne; simpl;
      destruct (columns_to_add_loop _ _ _) as [g a]; simpl in *;
      by subst g a.
Qed.

(** C3 (as amended): on a table that exists, an ordinary column to add
    that is NOT NULL and has no default makes the result
    [dropped_and_recreated] whatever [preserve] is; when the loop over
    the columns to add is reached (no column differs and no extraneous
    column already forces the recreation) and none of them is generated
    as stored, [false] is written through [attempt_to_preserve], also
    when [preserve] is set. *)
Theorem schema_status_not_null_column_to_add
    tImpl d notEqual columnsToAdd dbTableInfo c :
  table_exists d (table_name tImpl) = true →
  calc (get_table_info tImpl) (pragma_table_xinfo d (table_name tImpl))
    = (notEqual, columnsToAdd, dbTableInfo) →
  c ∈ columnsToAdd →
  find_column_generated_storage_type tImpl (name c) = None →
  notnull c = true → dflt_value c = EmptyString →
  (∀ preserve cell,
     (status tImpl d preserve cell).1 = dropped_and_recreated)
  ∧ (∀ preserve b,
       notEqual = false →
       dbTableInfo = [] ∨ preserve = true ∨ drop_column_supported = true →
       (∀ c', c' ∈ columnsToAdd → ¬ cannot_be_added_stored tImpl c') →
       (status tImpl d preserve (Some b)).2 = Some false).
Proof.
  intros Hex Hcalc Hin Hg Hn Hd.
  assert (cannot_be_added_not_null tImpl c) as Hc by done.
  assert (bool_decide (columnsToAdd = []) = false) as Hne.
  { apply bool_decide_eq_false. intros ->. by apply elem_of_nil in Hin. }
  split.
  - intros preserve cell. unfold schema_status. rewrite Hex, Hcalc. simpl.
    pose proof (columns_to_add_loop_not_null tImpl columnsToAdd
                  ((λ _, true) <$> cell) c Hin Hc) as Hloop.
    destruct notEqual; simpl; [done|].
    destruct (bool_decide (dbTableInfo = [])), preserve,
      drop_column_supported; simpl; try done; rewrite Hne; simpl;
      destruct (columns_to_add_loop _ _ _) as [g a]; simpl in *;
      by subst g.
  - intros preserve b -> Hreach Hno.
    unfold schema_status. rewrite Hex, Hcalc. simpl.
    rewrite (columns_to_add_loop_clears_flag tImpl columnsToAdd _ c Hin Hc Hno).
    rewrite Hne.
    destruct (decide (dbTableInfo = [])) as [Hrest|Hrest].
    + by rewrite (bool_decide_eq_true_2 _ Hrest).
    + rewrite (bool_decide_eq_false_2 _ Hrest). simpl.
      destruct Hreach as [?|[->| ->]]; [done|done|].
      by destruct preserve.
Qed.

(** C4: on a table that exists, with no column to add and no column
    that differs, extraneous live columns give [old_columns_removed],
    except without [preserve] on a database without DROP COLUMN, where
    they give [dropped_and_recreated]. *)
Theorem schema_status_extraneous_columns_only
    tImpl d preserve cell dbTableInfo :
  table_exists d (table_name tImpl) = true →
  calc (get_table_info tImpl) (pragma_table_xinfo d (table_name tImpl))
    = (false, [], dbTableInfo) →
  dbTableInfo ≠ [] →
  (status tImpl d preserve cell).1
  = if preserve then old_columns_removed
    else if drop_column_supported then old_columns_removed
         else dropped_and_recreated.
Proof.
  intros Hex Hcalc Hrest. unfold schema_status. rewrite Hex, Hcalc. simpl.
  rewrite bool_decide_eq_false_2 by done. simpl.
  by destruct preserve, drop_column_supported.
Qed.

End schema_status_facts.

(** ** Statements *)

Lemma perform_void_exec_ok st d tbls :
  execute st (tables d) = Some tbls →
  perform_void_exec st d
  = (Ok tt, mk_database tbls (user_version d) (journal d ++ [st])).
Proof. unfold perform_void_exec. by intros ->. Qed.

Lemma perform_void_exec_throw st d :
  execute st (tables d) = None →
  perform_void_exec st d = (Throw (sqlite_error st), d).
Proof. unfold perform_void_exec. by intros ->. Qed.

(** A statement either runs, and is the one entry the journal gains, or
    throws and leaves the database as it was. *)
Lemma perform_void_exec_cases st d :
  (∃ tbls, execute st (tables d) = Some tbls
     ∧ perform_void_exec st d
       = (Ok tt, mk_database tbls (user_version d) (journal d ++ [st])))
  ∨ perform_void_exec st d = (Throw (sqlite_error st), d).
Proof.
  destruct (execute st (tables d)) as [tbls|] eqn:He.
  - left. exists tbls. split; [done|]. by apply perform_void_exec_ok.
  - right. by apply perform_void_exec_throw.
Qed.

Lemma table_exists_true d n :
  table_exists d n = true ↔ is_Some (tables d !! n).
Proof. unfold table_exists. apply bool_decide_eq_true. Qed.

Lemma table_exists_false d n :
  table_exists d n = false ↔ tables d !! n = None.
Proof.
  unfold table_exists. rewrite bool_decide_eq_false.
  by rewrite eq_None_not_Some.
Qed.

(** ** The name of the backup table *)

Lemma append_assoc (s1 s2 s3 : string) :
  (s1 +:+ s2) +:+ s3 = s1 +:+ (s2 +:+ s3).
Proof.
  induction s1 as [|a s1 IH]; [done|].
  change (String a ((s1 +:+ s2) +:+ s3) = String a (s1 +:+ s2 +:+ s3)).
  by f_equal.
Qed.

Lemma append_eq_self (s x : string) : s +:+ x = s → x = EmptyString.
Proof.
  induction s as [|a s IH]; [done|].
  change (String a (s +:+ x) = String a s → x = EmptyString).
  intros [=]. by apply IH.
Qed.

Lemma probe_backup_name_Some fuel d backupTableName suffix x :
  probe_backup_name fuel d backupTableName suffix = Some x →
  ∃ k, suffix ≤ k < suffix + Z.of_nat fuel
       ∧ x = backupTableName +:+ pretty k
       ∧ table_exists d x = false
       ∧ ∀ j, suffix ≤ j < k →
              table_exists d (backupTableName +:+ pretty j) = true.
Proof.
  revert suffix. induction fuel as [|fuel IH]; intros suffix; simpl; [done|].
  destruct (table_exists d (backupTableName +:+ pretty suffix)) eqn:Hex; simpl.
  - intros (k & Hk & -> & Hfree & Hbelow)%IH. exists k.
    split; [lia|]. split; [done|]. split; [done|].
    intros j Hj. destruct (decide (j = suffix)) as [->|]; [done|].
    apply Hbelow. lia.
  - intros [= <-]. exists suffix. split; [lia|]. split; [done|].
    split; [done|]. intros j Hj. lia.
Qed.

Lemma probe_backup_name_None fuel d backupTableName suffix :
  probe_backup_name fuel d backupTableName suffix = None →
  ∀ i : nat, (i < fuel)%nat →
    table_exists d (backupTableName +:+ pretty (suffix + Z.of_nat i)) = true.
Proof.
  revert suffix. induction fuel as [|fuel IH]; intros suffix; simpl.
  - intros _ i Hi. lia.
  - destruct (table_exists d (backupTableName +:+ pretty suffix)) eqn:Hex;
      simpl; [|done].
    intros Hnone [|i] Hi.
    + by rewrite Z.add_0_r.
    + replace (suffix + Z.of_nat (S i)) with (suffix + 1 + Z.of_nat i) by lia.
      apply (IH _ Hnone). lia.
Qed.

(** A database has fewer tables than the loop is given probes: one of the
    probed names is free. *)
Lemma probe_backup_name_enough d backupTableName :
  is_Some (probe_backup_name (S (size (tables d))) d backupTableName 1).
Proof.
  destruct (probe_backup_name _ _ _ _) as [x|] eqn:Hp; [by eexists|].
  exfalso.
  pose proof (probe_backup_name_None _ _ _ _ Hp) as Hall.
  set (f := λ i : nat, backupTableName +:+ pretty (1 + Z.of_nat i)).
  assert (NoDup (f <$> seq 0 (S (size (tables d))))) as Hnd.
  { apply NoDup_fmap_2_strong; [|apply NoDup_seq].
    intros i j _ _ Hij. unfold f in Hij.
    apply (inj (String.append backupTableName)) in Hij.
    apply (inj pretty) in Hij. lia. }
  assert (f <$> seq 0 (S (size (tables d))) ⊆+ base.elements (dom (tables d)))
    as Hsub.
  { apply NoDup_submseteq; [done|].
    intros x (i & -> & Hi%elem_of_seq)%list_elem_of_fmap.
    apply elem_of_elements, elem_of_dom, table_exists_true, Hall. lia. }
  apply submseteq_length in Hsub.
  rewrite length_fmap, length_seq in Hsub.
  change (length (base.elements (dom (tables d)))) with (size (dom (tables d)))
    in Hsub.
  rewrite size_dom in Hsub. lia.
Qed.

(** The loop of [backup_table] ends: a name is always found. *)
Lemma backup_table_name_total d tableName :
  is_Some (backup_table_name d tableName).
Proof.
  unfold backup_table_name.
  destruct (table_exists d (tableName +:+ "_backup")); [|by eexists].
  apply probe_backup_name_enough.
Qed.

Lemma backup_table_name_free d tableName backupTableName :
  backup_table_name d tableName = Some backupTableName →
  tables d !! backupTableName = None ∧ backupTableName ≠ tableName.
Proof.
  unfold backup_table_name.
  destruct (table_exists d (tableName +:+ "_backup")) eqn:Hex.
  - intros (k & _ & -> & Hfree & _)%probe_backup_name_Some.
    split; [by apply table_exists_false|].
    rewrite append_assoc. intros ?%append_eq_self. discriminate.
  - intros [= <-]. split; [by apply table_exists_false|].
    intros ?%append_eq_self. discriminate.
Qed.

(** ** The steps of [backup_table] *)

Local Ltac backup_table_prefix :=
  split; [lia|]; split; [simpl; by rewrite <- ?app_assoc|];
  split; intros; [done || lia | done || lia].

(** [backup_table] runs a prefix of its four statements, in their order:
    the creation of the backup table always runs (its name is free), each
    later statement runs only after the one before it has, and the call
    returns when all four have run. *)
Lemma backup_table_run tableImpl columnsToIgnore d backupTableName :
  backup_table_name d (table_name tableImpl) = Some backupTableName →
  ∃ k, (1 ≤ k ≤ 4)%nat
    ∧ journal (backup_table tableImpl columnsToIgnore d).2
      = journal d
        ++ take k (backup_statements tableImpl columnsToIgnore d
                     backupTableName)
    ∧ ((backup_table tableImpl columnsToIgnore d).1 = Ok tt ↔ k = 4%nat).
Proof.
  intros Hname.
  destruct (backup_table_name_free _ _ _ Hname) as [Hfree Hne].
  unfold backup_table. rewrite Hname.
  unfold create_table, copy_table, drop_table_internal, rename_table,
    backup_statements, mbind, M_bind.
  rewrite (perform_void_exec_ok _ _
             (<[backupTableName := column_info <$> elements tableImpl]>
                (tables d))) by (simpl; by rewrite Hfree).
  set (d1 := mk_database _ _ _).
  replace (pragma_table_xinfo d1 (table_name tableImpl))
    with (pragma_table_xinfo d (table_name tableImpl))
    by (unfold pragma_table_xinfo, d1; simpl; by rewrite lookup_insert_ne).
  set (insert_select := InsertSelect _ _ _).
  destruct (perform_void_exec_cases insert_select d1)
    as [(t2 & _ & ->)| ->]; [|exists 1%nat; backup_table_prefix].
  set (d2 := mk_database _ _ _).
  destruct (perform_void_exec_cases (DropTable (table_name tableImpl)) d2)
    as [(t3 & _ & ->)| ->]; [|exists 2%nat; backup_table_prefix].
  set (d3 := mk_database _ _ _).
  destruct (perform_void_exec_cases
              (AlterTableRenameTo backupTableName (table_name tableImpl)) d3)
    as [(t4 & _ & ->)| ->]; [exists 4%nat|exists 3%nat]; backup_table_prefix.
Qed.

Lemma copy_column_names_exist tImpl sourceInfo columnsToIgnore :
  forallb (λ cn, has_column cn (column_info <$> elements tImpl)
                 && has_column cn sourceInfo)
    (copy_column_names tImpl sourceInfo columnsToIgnore) = true.
Proof.
  apply forallb_forall. intros cn Hcn%list_elem_of_In.
  unfold copy_column_names in Hcn.
  apply list_elem_of_fmap in Hcn as (c & -> & Hc).
  apply list_elem_of_filter in Hc as [(Hsrc & _ & _) Hc].
  apply andb_true_iff. split.
  - apply bool_decide_eq_true. rewrite <- list_fmap_compose.
    apply list_elem_of_fmap. by exists c.
  - apply bool_decide_eq_true. apply bool_decide_eq_true in Hsrc.
    apply list_elem_of_fmap in Hsrc as (i & -> & Hi%list_elem_of_filter).
    apply list_elem_of_fmap. exists i. by destruct Hi.
Qed.

(** On a table that exists every step of [backup_table] runs: the table
    ends up with the declared columns, and no other table is changed. *)
Lemma backup_table_ok tableImpl columnsToIgnore d backupTableName :
  backup_table_name d (table_name tableImpl) = Some backupTableName →
  table_exists d (table_name tableImpl) = true →
  backup_table tableImpl columnsToIgnore d
  = (Ok tt,
     mk_database
       (<[table_name tableImpl := column_info <$> elements tableImpl]>
          (tables d))
       (user_version d)
       (journal d
        ++ backup_statements tableImpl columnsToIgnore d backupTableName)).
Proof.
  intros Hname [live Hlive]%table_exists_true.
  destruct (backup_table_name_free _ _ _ Hname) as [Hfree Hne].
  assert (table_name tableImpl ≠ backupTableName) as Hne' by congruence.
  unfold backup_table. rewrite Hname.
  unfold create_table, copy_table, drop_table_internal, rename_table,
    backup_statements, mbind, M_bind.
  rewrite (perform_void_exec_ok _ _
             (<[backupTableName := column_info <$> elements tableImpl]>
                (tables d))) by (simpl; by rewrite Hfree).
  set (d1 := mk_database _ _ _).
  replace (pragma_table_xinfo d1 (table_name tableImpl))
    with (pragma_table_xinfo d (table_name tableImpl))
    by (unfold pragma_table_xinfo, d1; simpl; by rewrite lookup_insert_ne).
  rewrite (perform_void_exec_ok _ d1 (tables d1)).
  2:{ unfold d1, pragma_table_xinfo. simpl.
      rewrite lookup_insert_eq, lookup_insert_ne, Hlive by done. simpl.
      by rewrite copy_column_names_exist. }
  set (d2 := mk_database _ _ _).
  rewrite (perform_void_exec_ok _ d2 (delete (table_name tableImpl) (tables d1))).
  2:{ unfold d2, d1. simpl. by rewrite lookup_insert_ne, Hlive by done. }
  set (d3 := mk_database _ _ _).
  rewrite (perform_void_exec_ok _ d3
             (<[table_name tableImpl := column_info <$> elements tableImpl]>
                (tables d))).
  2:{ unfold d3, d2, d1. simpl.
      rewrite (lookup_delete_ne _ (table_name tableImpl) backupTableName)
        by done.
      rewrite lookup_insert_eq, lookup_delete_eq. simpl. f_equal. apply map_eq. intros n.
      destruct (decide (n = table_name tableImpl)) as [->|Hn].
      { by rewrite !lookup_insert_eq. }
      rewrite !lookup_insert_ne by done.
      destruct (decide (n = backupTableName)) as [->|Hn'].
      { by rewrite lookup_delete_eq. }
      by rewrite !lookup_delete_ne, lookup_insert_ne. }
  unfold d3, d2, d1. simpl. by rewrite <- !app_assoc.
Qed.

(** C6: [backup_table] settles on [<table>_backup] when no table has that
    name, and else on [<table>_backup<k>] for the first [k] = 1, 2, ...
    that names no table ([k] is at most the number of tables plus one);
    with tables [<table>_backup] and
    [<table>_backup1] and no table [<table>_backup2] the name is
    [<table>_backup2], and that is the table [backup_table] creates. *)
Theorem backup_table_name_probing d tableName :
  (∃ backupTableName,
     backup_table_name d tableName = Some backupTableName
     ∧ table_exists d backupTableName = false
     ∧ (if table_exists d (tableName +:+ "_backup")
        then ∃ k, 1 ≤ k ≤ Z.of_nat (size (tables d)) + 1
               ∧ backupTableName = (tableName +:+ "_backup") +:+ pretty k
               ∧ ∀ j, 1 ≤ j < k →
                   table_exists d ((tableName +:+ "_backup") +:+ pretty j)
                   = true
        else backupTableName = tableName +:+ "_backup"))
  ∧ (table_exists d (tableName +:+ "_backup") = true →
     table_exists d ((tableName +:+ "_backup") +:+ "1") = true →
     table_exists d ((tableName +:+ "_backup") +:+ "2") = false →
     backup_table_name d tableName
       = Some ((tableName +:+ "_backup") +:+ "2")
     ∧ ∀ tableImpl columnsToIgnore,
         table_name tableImpl = tableName →
         ∃ rest,
           journal (backup_table tableImpl columnsToIgnore d).2
           = journal d
             ++ CreateTable ((tableName +:+ "_backup") +:+ "2")
                  (elements tableImpl) (is_without_rowid tableImpl)
                :: rest).
Proof.
  split.
  - destruct (backup_table_name_total d tableName) as [bn Hbn].
    exists bn. split; [done|].
    split; [by apply table_exists_false, (backup_table_name_free _ tableName)|].
    unfold backup_table_name in Hbn.
    destruct (table_exists d (tableName +:+ "_backup")).
    + apply probe_backup_name_Some in Hbn as (k & Hk & -> & _ & Hbelow).
      exists k. split; [lia|]. split; [done|]. intros j Hj. by apply Hbelow.
    + by injection Hbn as <-.
  - intros H0 H1 H2.
    assert (backup_table_name d tableName
            = Some ((tableName +:+ "_backup") +:+ "2")) as Hname.
    { destruct (backup_table_name_total d tableName) as [bn Hbn].
      rewrite Hbn. f_equal.
      unfold backup_table_name in Hbn. rewrite H0 in Hbn.
      apply probe_backup_name_Some in Hbn as (k & Hk & -> & Hfree & Hbelow).
      assert (k = 2) as ->; [|done].
      destruct (decide (k = 1)) as [->|].
      { change (pretty 1) with "1" in Hfree. congruence. }
      destruct (decide (2 < k)) as [Hlt|]; [|lia].
      specialize (Hbelow 2). change (pretty 2) with "2" in Hbelow.
      rewrite Hbelow in H2; [done|lia]. }
    split; [done|].
    intros tableImpl columnsToIgnore <-.
    destruct (backup_table_run tableImpl columnsToIgnore d _ Hname)
      as (k & Hk & -> & _).
    destruct k as [|k]; [lia|]. simpl. by eexists.
Qed.

(** C7: [backup_table] runs its statements in this order, each only after
    the one before it has run: creation of the backup table from the
    declared table, copy of the common columns from the original table into
    it, drop of the original table, rename of the backup table to the
    original name. What has run when it leaves is a prefix of this
    sequence; it returns exactly when all four have run, which is the case
    on a table that exists. So the original table is dropped only after
    the copy has run. *)
Theorem backup_table_steps_in_order tableImpl columnsToIgnore d :
  ∃ backupTableName k,
    backup_table_name d (table_name tableImpl) = Some backupTableName
    ∧ backup_statements tableImpl columnsToIgnore d backupTableName
      = [CreateTable backupTableName (elements tableImpl)
           (is_without_rowid tableImpl);
         InsertSelect backupTableName (table_name tableImpl)
           (copy_column_names tableImpl
              (pragma_table_xinfo d (table_name tableImpl)) columnsToIgnore);
         DropTable (table_name tableImpl);
         AlterTableRenameTo backupTableName (table_name tableImpl)]
    ∧ (1 ≤ k ≤ 4)%nat
    ∧ journal (backup_table tableImpl columnsToIgnore d).2
      = journal d
        ++ take k (backup_statements tableImpl columnsToIgnore d
                     backupTableName)
    ∧ ((backup_table tableImpl columnsToIgnore d).1 = Ok tt ↔ k = 4%nat)
    ∧ (table_exists d (table_name tableImpl) = true → k = 4%nat).
Proof.
  destruct (backup_table_name_total d (table_name tableImpl)) as [bn Hbn].
  destruct (backup_table_run tableImpl columnsToIgnore d bn Hbn)
    as (k & Hk & Hj & Hok).
  exists bn, k. repeat split; try done; try lia; try apply Hok; try tauto.
  intros Hex. apply Hok.
  by rewrite (backup_table_ok _ _ _ _ Hbn Hex).
Qed.

(** ** The diff classifier *)

Lemma filter_nil_intro {A} (P : A → Prop) `{∀ x, Decision (P x)} (l : list A) :
  (∀ x, x ∈ l → ¬ P x) → filter P l = [].
Proof.
  induction l as [|x l IH]; intros HP; [done|].
  rewrite filter_cons_False by (apply HP; by left).
  apply IH. intros y Hy. apply HP. by right.
Qed.

Lemma find_column_None info n :
  find_column info n = None ↔ n ∉ name <$> info.
Proof.
  induction info as [|i info IH]; simpl.
  - split; [|done]. intros _ []%elem_of_nil.
  - case_decide as Hi.
    + split; [done|]. intros []. subst n. by left.
    + rewrite IH, not_elem_of_cons. split; [|by intros [_ ?]].
      intros ?. split; [congruence|done].
Qed.

Lemma find_column_Some info n i :
  find_column info n = Some i → i ∈ info ∧ name i = n.
Proof.
  induction info as [|i' info IH]; simpl; [done|].
  case_decide as Hi.
  - intros [= <-]. split; [by left|done].
  - intros [??]%IH. split; [by right|done].
Qed.

Lemma find_column_app info1 info2 n :
  find_column (info1 ++ info2) n
  = match find_column info1 n with
    | Some i => Some i
    | None => find_column info2 n
    end.
Proof.
  induction info1 as [|i info1 IH]; simpl; [done|]. by case_decide.
Qed.

Lemma find_column_filter (Q : table_xinfo → Prop) `{∀ x, Decision (Q x)}
    info n :
  (∀ i, i ∈ info → name i = n → Q i) →
  find_column (filter Q info) n = find_column info n.
Proof.
  induction info as [|i info IH]; intros HQ; [done|].
  assert (find_column (filter Q info) n = find_column info n) as IH'.
  { apply IH. intros i' Hi'. apply HQ. by right. }
  simpl. case_decide as Hi.
  - rewrite filter_cons_True by (apply HQ; [by left|done]).
    simpl. by rewrite decide_True.
  - destruct (decide (Q i)).
    + rewrite filter_cons_True by done. simpl. by rewrite decide_False.
    + by rewrite filter_cons_False.
Qed.

Lemma find_column_filter_self (P : table_xinfo → Prop)
    `{∀ x, Decision (P x)} info c :
  NoDup (name <$> info) → c ∈ info → P c →
  find_column (filter P info) (name c) = Some c.
Proof.
  induction info as [|i info IH]; intros Hnd Hc HP.
  - by apply elem_of_nil in Hc.
  - rewrite fmap_cons in Hnd. apply NoDup_cons in Hnd as [Hi Hnd].
    apply elem_of_cons in Hc as [<-|Hc].
    + rewrite filter_cons_True by done. simpl. by rewrite decide_True.
    + assert (name i ≠ name c) as Hne.
      { intros Heq. apply Hi. rewrite Heq. by apply list_elem_of_fmap_2. }
      destruct (decide (P i)).
      * rewrite filter_cons_True by done. simpl. rewrite decide_False by done.
        by apply IH.
      * rewrite filter_cons_False by done. by apply IH.
Qed.

Lemma find_column_self info c :
  NoDup (name <$> info) → c ∈ info → find_column info (name c) = Some c.
Proof.
  intros Hnd Hc.
  pose proof (find_column_filter_self (λ _, True) info c Hnd Hc I) as Hf.
  rewrite <- Hf. symmetry. by apply find_column_filter.
Qed.

Lemma columns_compatible_refl c : columns_compatible c c = true.
Proof.
  unfold columns_compatible. by rewrite !bool_decide_eq_true_2.
Qed.

(** No declared column has the name of a live column that has no declared
    column of its name: the exception for hidden columns never applies. *)
Lemma extraneous_classify declared live :
  extraneous (classify declared live)
  = filter (λ l, find_column declared (name l) = None) live.
Proof.
  simpl. apply list_filter_iff. intros l. split; [by intros [??]|].
  intros Hnone. split; [done|]. intros [_ Hex].
  apply Exists_exists in Hex as (c & Hc & Hname & _).
  apply find_column_None in Hnone. apply Hnone.
  rewrite <- Hname. by apply list_elem_of_fmap_2.
Qed.

Lemma incompatible_classify_false declared live c l :
  incompatible (classify declared live) = false →
  c ∈ declared → find_column live (name c) = Some l →
  columns_compatible c l = true.
Proof.
  simpl. intros Hinc Hc Hl.
  destruct (columns_compatible c l) eqn:Hcomp; [done|].
  assert (existsb (differs_from live) declared = true) as Hex; [|congruence].
  apply existsb_exists. exists c. split; [by apply list_elem_of_In|].
  unfold differs_from. by rewrite Hl, Hcomp.
Qed.

Lemma synced_intro declared live :
  (∀ c, c ∈ declared →
     ∃ l, find_column live (name c) = Some l
          ∧ columns_compatible c l = true) →
  (∀ l, l ∈ live → name l ∈ name <$> declared) →
  synced declared live.
Proof.
  intros Hdecl Hlive. unfold synced, classify. f_equal.
  - apply filter_nil_intro. intros c Hc Hnone.
    destruct (Hdecl c Hc) as (l & Hl & _). congruence.
  - apply filter_nil_intro. intros l Hl [Hnone _].
    apply find_column_None in Hnone. by apply Hnone, Hlive.
  - apply not_true_is_false. intros Hex.
    apply existsb_exists in Hex as (c & Hc%list_elem_of_In & Hdiff).
    destruct (Hdecl c Hc) as (l & Hl & Hcomp).
    unfold differs_from in Hdiff. by rewrite Hl, Hcomp in Hdiff.
Qed.

(** A table created from its declaration agrees with it. *)
Lemma synced_self declared :
  NoDup (name <$> declared) → synced declared declared.
Proof.
  intros Hnd. apply synced_intro.
  - intros c Hc. exists c. split; [by apply find_column_self|].
    apply columns_compatible_refl.
  - intros l Hl. by apply list_elem_of_fmap_2.
Qed.

(** So does a table without a column that differs, once its extraneous
    columns are dropped and the columns to add are added. *)
Lemma synced_after_alter declared live :
  NoDup (name <$> declared) →
  incompatible (classify declared live) = false →
  synced declared
    (filter (λ l, name l ∉ name <$> extraneous (classify declared live)) live
     ++ to_add (classify declared live)).
Proof.
  intros Hnd Hinc.
  assert (∀ i, name i ∈ name <$> declared →
               name i ∉ name <$> extraneous (classify declared live)) as Hkeep.
  { intros i Hi (e & He & Hex)%list_elem_of_fmap.
    rewrite extraneous_classify in Hex.
    apply list_elem_of_filter in Hex as [Hnone _].
    apply find_column_None in Hnone. apply Hnone. by rewrite <- He. }
  apply synced_intro.
  - intros c Hc. rewrite find_column_app.
    rewrite find_column_filter.
    2:{ intros i _ Hi. apply Hkeep. rewrite Hi. by apply list_elem_of_fmap_2. }
    destruct (find_column live (name c)) as [l|] eqn:Hl.
    + exists l. split; [done|].
      by apply (incompatible_classify_false declared live).
    + exists c. split; [|apply columns_compatible_refl].
      simpl. by apply find_column_filter_self.
  - intros l [Hl|Hl]%elem_of_app.
    + apply list_elem_of_filter in Hl as [Hq Hl].
      destruct (decide (name l ∈ name <$> declared)) as [|Hnot]; [done|].
      exfalso. apply Hq. apply list_elem_of_fmap_2.
      rewrite extraneous_classify. apply list_elem_of_filter.
      split; [by apply find_column_None|done].
    + simpl in Hl. apply list_elem_of_filter in Hl as [_ Hl].
      by apply list_elem_of_fmap_2.
Qed.

(** ** What a run of statements changes *)

Lemma bind_Ok_inv {A B} (m : M A) (k : A → M B) d b d' :
  (m ≫= k) d = (Ok b, d') →
  ∃ a d1, m d = (Ok a, d1) ∧ k a d1 = (Ok b, d').
Proof.
  unfold mbind, M_bind. destruct (m d) as [[a|e] d1]; [|done]. by exists a, d1.
Qed.

Lemma execute_on st n tbls tbls' :
  statement_on n st → execute st tbls = Some tbls' →
  ∀ m, m ≠ n → tbls' !! m = tbls !! m.
Proof.
  destruct st as [n' cols wr|n' c|n' cn|dst src cns|n'|n' n'']; simpl;
    intros Hon Hexec m Hm; subst.
  - destruct (tbls !! n); simplify_eq. by rewrite lookup_insert_ne.
  - destruct (tbls !! n) as [info|]; simplify_eq/=.
    destruct (has_column _ _); simplify_eq. by rewrite lookup_insert_ne.
  - destruct (tbls !! n) as [info|]; simplify_eq/=.
    destruct (has_column _ _); simplify_eq. by rewrite lookup_insert_ne.
  - destruct (tbls !! dst) as [dinfo|]; simplify_eq/=.
    destruct (tbls !! src) as [sinfo|]; simplify_eq/=.
    destruct (forallb _ _); by simplify_eq.
  - destruct (tbls !! n); simplify_eq/=. by rewrite lookup_delete_ne.
  - done.
Qed.

Lemma perform_void_exec_on st n d d' :
  statement_on n st → perform_void_exec st d = (Ok tt, d') →
  ∀ m, m ≠ n → tables d' !! m = tables d !! m.
Proof.
  intros Hon Hexec m Hm.
  destruct (perform_void_exec_cases st d) as [(tbls & He & Hp)|Hp];
    rewrite Hp in Hexec; simplify_eq/=.
  by apply (execute_on st n).
Qed.

Lemma for_each_on {A} (f : A → M unit) n l d d' :
  (∀ a d1 d2, f a d1 = (Ok tt, d2) →
     ∀ m, m ≠ n → tables d2 !! m = tables d1 !! m) →
  for_each f l d = (Ok tt, d') →
  ∀ m, m ≠ n → tables d' !! m = tables d !! m.
Proof.
  intros Hf. revert d. induction l as [|a l IH]; intros d; simpl.
  - by intros [= <-].
  - intros ([] & d1 & Ha & Hl)%bind_Ok_inv m Hm.
    rewrite (IH _ Hl m Hm). by apply (Hf a d).
Qed.

Lemma filter_all {A} (P : A → Prop) `{∀ x, Decision (P x)} (l : list A) :
  (∀ x, x ∈ l → P x) → filter P l = l.
Proof.
  induction l as [|x l IH]; intros HP; [done|].
  rewrite filter_cons_True by (apply HP; by left).
  f_equal. apply IH. intros y Hy. apply HP. by right.
Qed.

Lemma add_column_for_each n cs d d' live :
  for_each (add_column n) cs d = (Ok tt, d') →
  tables d !! n = Some live →
  tables d' !! n = Some (live ++ (column_info <$> cs)).
Proof.
  revert d live. induction cs as [|c cs IH]; intros d live; simpl.
  - intros [= <-] ->. by rewrite app_nil_r.
  - intros ([] & d1 & Hc & Hcs)%bind_Ok_inv Hlive.
    unfold add_column in Hc.
    destruct (perform_void_exec_cases (AlterTableAddColumn n c) d)
      as [(tbls & He & Hp)|Hp]; rewrite Hp in Hc; simplify_eq/=.
    rewrite Hlive in He. simpl in He.
    destruct (has_column _ _); simplify_eq.
    rewrite (IH _ (live ++ [column_info c]) Hcs)
      by (simpl; by rewrite lookup_insert_eq).
    by rewrite <- app_assoc.
Qed.

Lemma drop_columns_effect n cols d d' live :
  drop_columns n cols d = (Ok tt, d') →
  tables d !! n = Some live →
  tables d' !! n = Some (filter (λ l, name l ∉ name <$> cols) live).
Proof.
  unfold drop_columns.
  revert d live. induction cols as [|i cols IH]; intros d live; simpl.
  - intros [= <-] ->. f_equal. symmetry. apply filter_all.
    intros x _. apply not_elem_of_nil.
  - intros ([] & d1 & Hc & Hcs)%bind_Ok_inv Hlive.
    unfold drop_column in Hc.
    destruct (perform_void_exec_cases (AlterTableDropColumn n (name i)) d)
      as [(tbls & He & Hp)|Hp]; rewrite Hp in Hc; simplify_eq/=.
    rewrite Hlive in He. simpl in He.
    destruct (has_column _ _); simplify_eq.
    rewrite (IH _ (filter (λ l, name l ≠ name i) live) Hcs)
      by (simpl; by rewrite lookup_insert_eq).
    f_equal. rewrite list_filter_filter. apply list_filter_iff.
    intros x. rewrite not_elem_of_cons. tauto.
Qed.

Lemma fmap_filter_column_info (P : table_xinfo → Prop)
    `{∀ x, Decision (P x)} (added : list table_xinfo) (cs : list column_t) :
  (∀ c, c ∈ cs →
     (has_column (column_name c) added = true ↔ P (column_info c))) →
  column_info <$> filter (λ c, has_column (column_name c) added = true) cs
  = filter P (column_info <$> cs).
Proof.
  induction cs as [|c cs IH]; intros Hiff; [done|].
  rewrite fmap_cons.
  assert (∀ c', c' ∈ cs →
            (has_column (column_name c') added = true ↔ P (column_info c')))
    as Hcs.
  { intros c' Hc'. apply Hiff. by right. }
  destruct (decide (P (column_info c))) as [Hn|Hn].
  - rewrite (filter_cons_True P (column_info c)) by done.
    rewrite filter_cons_True by (apply Hiff; [by left|done]).
    rewrite fmap_cons. f_equal. by apply IH.
  - rewrite (filter_cons_False P (column_info c)) by done.
    rewrite filter_cons_False; [by apply IH|].
    intros Hh. apply Hn. apply Hiff; [by left|done].
Qed.

(** The declared columns [add_columns] adds are the columns to add. *)
Lemma add_columns_to_add tImpl live :
  column_info <$>
    filter (λ c, has_column (column_name c)
                   (to_add (classify (get_table_info tImpl) live)) = true)
      (elements tImpl)
  = to_add (classify (get_table_info tImpl) live).
Proof.
  simpl. unfold get_table_info.
  apply (fmap_filter_column_info (λ i, find_column live (name i) = None)).
  intros c Hc. unfold has_column. rewrite bool_decide_eq_true.
  rewrite list_elem_of_fmap. split.
  - intros (i & Hi & [Hnone _]%list_elem_of_filter).
    simpl. by rewrite Hi.
  - intros Hnone. exists (column_info c). split; [done|].
    apply list_elem_of_filter. split; [done|].
    by apply list_elem_of_fmap_2.
Qed.

(** ** [schema_status] against the diff *)

Lemma schema_status_lookup dcs tImpl d d' preserve cell :
  tables d !! table_name tImpl = tables d' !! table_name tImpl →
  schema_status dcs calculate_remove_add_columns tImpl d preserve cell
  = schema_status dcs calculate_remove_add_columns tImpl d' preserve cell.
Proof.
  intros Heq. unfold schema_status, table_exists, pragma_table_xinfo.
  by rewrite Heq.
Qed.

Lemma schema_status_synced dcs tImpl d preserve cell live :
  tables d !! table_name tImpl = Some live →
  synced (get_table_info tImpl) live →
  (schema_status dcs calculate_remove_add_columns tImpl d preserve cell).1
  = already_in_sync.
Proof.
  intros Hlive Hsync.
  unfold schema_status, table_exists, pragma_table_xinfo,
    calculate_remove_add_columns.
  rewrite Hlive. simpl default. rewrite Hsync.
  by rewrite bool_decide_eq_true_2.
Qed.

(** What each result of [schema_status] says about the diff. *)
Lemma schema_status_diff dcs tImpl d preserve cell :
  let diff := classify (get_table_info tImpl)
                (pragma_table_xinfo d (table_name tImpl)) in
  match (schema_status dcs calculate_remove_add_columns
           tImpl d preserve cell).1 with
  | new_table_created => table_exists d (table_name tImpl) = false
  | already_in_sync | dropped_and_recreated =>
      table_exists d (table_name tImpl) = true
  | new_columns_added =>
      table_exists d (table_name tImpl) = true
      ∧ incompatible diff = false ∧ extraneous diff = []
  | old_columns_removed =>
      table_exists d (table_name tImpl) = true
      ∧ incompatible diff = false ∧ to_add diff = []
  | new_columns_added_and_old_columns_removed =>
      table_exists d (table_name tImpl) = true
      ∧ incompatible diff = false
  end.
Proof.
  intros diff. unfold schema_status, calculate_remove_add_columns.
  subst diff.
  generalize (classify (get_table_info tImpl)
                (pragma_table_xinfo d (table_name tImpl))).
  intros diff.
  destruct (table_exists d (table_name tImpl)); simpl; [|done].
  destruct (incompatible diff); simpl; [done|].
  destruct (decide (extraneous diff = [])) as [He|He];
    [rewrite (bool_decide_eq_true_2 _ He)
    |rewrite (bool_decide_eq_false_2 _ He)];
    (destruct (decide (to_add diff = [])) as [Ha|Ha];
     [rewrite (bool_decide_eq_true_2 _ Ha)
     |rewrite (bool_decide_eq_false_2 _ Ha)]);
    destruct preserve, dcs; simpl; try done;
    destruct (columns_to_add_loop _ _ _) as [[] a]; simpl; done.
Qed.

(** ** The effect of [sync_table] *)

Lemma names_get_table_info tImpl :
  name <$> get_table_info tImpl = column_name <$> elements tImpl.
Proof. unfold get_table_info. by rewrite <- list_fmap_compose. Qed.

Lemma NoDup_fmap_filter {A B} (f : A → B) (P : A → Prop)
    `{∀ x, Decision (P x)} (l : list A) :
  NoDup (f <$> l) → NoDup (f <$> filter P l).
Proof.
  induction l as [|x l IH]; [done|].
  rewrite fmap_cons, NoDup_cons. intros [Hx Hl].
  destruct (decide (P x)).
  - rewrite filter_cons_True, fmap_cons, NoDup_cons by done.
    split; [|by apply IH].
    intros (y & Hy & [_ Hin]%list_elem_of_filter)%list_elem_of_fmap.
    apply Hx. rewrite Hy. by apply list_elem_of_fmap_2.
  - rewrite filter_cons_False by done. by apply IH.
Qed.

Lemma recreated_effect tImpl d d1 :
  tables d1 = <[table_name tImpl := get_table_info tImpl]> (tables d) →
  (∀ m, m ≠ table_name tImpl → tables d1 !! m = tables d !! m)
  ∧ (NoDup (column_name <$> elements tImpl) →
     ∃ live', tables d1 !! table_name tImpl = Some live'
              ∧ synced (get_table_info tImpl) live'
              ∧ (unique_columns d → NoDup (name <$> live'))).
Proof.
  intros ->. split.
  - intros m Hm. by rewrite lookup_insert_ne.
  - intros Hnd. exists (get_table_info tImpl).
    rewrite lookup_insert_eq, names_get_table_info. split_and!; [done| |done].
    apply synced_self. by rewrite names_get_table_info.
Qed.

Lemma backup_table_effect tImpl columnsToIgnore d d1 :
  table_exists d (table_name tImpl) = true →
  backup_table tImpl columnsToIgnore d = (Ok tt, d1) →
  tables d1 = <[table_name tImpl := get_table_info tImpl]> (tables d).
Proof.
  intros Hex Hrun.
  destruct (backup_table_name_total d (table_name tImpl)) as [bn Hbn].
  rewrite (backup_table_ok _ _ _ _ Hbn Hex) in Hrun. by simplify_eq.
Qed.

Lemma drop_create_with_loss_effect tImpl d d1 :
  drop_create_with_loss tImpl d = (Ok tt, d1) →
  tables d1 = <[table_name tImpl := get_table_info tImpl]> (tables d).
Proof.
  unfold drop_create_with_loss, drop_table_internal, create_table.
  intros ([] & d2 & Hdrop & Hcreate)%bind_Ok_inv.
  destruct (perform_void_exec_cases (DropTable (table_name tImpl)) d)
    as [(t2 & He2 & Hp2)|Hp2]; rewrite Hp2 in Hdrop; simplify_eq/=.
  destruct (perform_void_exec_cases
              (CreateTable (table_name tImpl) (elements tImpl)
                 (is_without_rowid tImpl))
              (mk_database t2 (user_version d)
                 (journal d ++ [DropTable (table_name tImpl)])))
    as [(t1 & He1 & Hp1)|Hp1]; rewrite Hp1 in Hcreate; simplify_eq/=.
  destruct (tables d !! table_name tImpl); simplify_eq/=.
  rewrite lookup_delete_eq in He1. simplify_eq.
  by rewrite insert_delete_eq.
Qed.

Lemma add_columns_on tImpl columnsToAdd d d1 :
  add_columns tImpl columnsToAdd d = (Ok tt, d1) →
  ∀ m, m ≠ table_name tImpl → tables d1 !! m = tables d !! m.
Proof.
  apply for_each_on. intros c d2 d3 Hc.
  exact (perform_void_exec_on
           (AlterTableAddColumn (table_name tImpl) c) (table_name tImpl)
           d2 d3 eq_refl Hc).
Qed.

Lemma add_columns_nil tImpl d : add_columns tImpl [] d = (Ok tt, d).
Proof.
  unfold add_columns. rewrite filter_nil_intro; [done|].
  intros c _. unfold has_column. rewrite bool_decide_eq_true.
  apply not_elem_of_nil.
Qed.

Lemma drop_columns_on tableName columns d d1 :
  drop_columns tableName columns d = (Ok tt, d1) →
  ∀ m, m ≠ tableName → tables d1 !! m = tables d !! m.
Proof.
  apply for_each_on. intros c d2 d3 Hc.
  exact (perform_void_exec_on
           (AlterTableDropColumn tableName (name c)) tableName
           d2 d3 eq_refl Hc).
Qed.

(** Dropping the extraneous columns and adding the columns to add, on a
    table without a column that differs. *)
Lemma altered_effect tImpl d d2 d1 live :
  tables d !! table_name tImpl = Some live →
  incompatible (classify (get_table_info tImpl) live) = false →
  drop_columns (table_name tImpl)
    (extraneous (classify (get_table_info tImpl) live)) d = (Ok tt, d2) →
  add_columns tImpl (to_add (classify (get_table_info tImpl) live)) d2
    = (Ok tt, d1) →
  (∀ m, m ≠ table_name tImpl → tables d1 !! m = tables d !! m)
  ∧ (NoDup (column_name <$> elements tImpl) →
     ∃ live', tables d1 !! table_name tImpl = Some live'
              ∧ synced (get_table_info tImpl) live'
              ∧ (unique_columns d → NoDup (name <$> live'))).
Proof.
  intros Hlive Hinc Hdrop Hadd. split.
  - intros m Hm. rewrite (add_columns_on _ _ _ _ Hadd m Hm).
    by apply (drop_columns_on _ _ _ _ Hdrop).
  - intros Hnd. rewrite <- names_get_table_info in Hnd.
    eexists. split_and!.
    + unfold add_columns in Hadd.
      eapply add_column_for_each; [exact Hadd|].
      exact (drop_columns_effect _ _ _ _ _ Hdrop Hlive).
    + rewrite add_columns_to_add. by apply synced_after_alter.
    + intros Hwf. rewrite add_columns_to_add, fmap_app.
      apply NoDup_app. split_and!.
      * apply NoDup_fmap_filter. by apply (Hwf (table_name tImpl)).
      * intros x (l & -> & [_ Hl]%list_elem_of_filter)%list_elem_of_fmap
          (c & Hc & [Hnone _]%list_elem_of_filter)%list_elem_of_fmap.
        apply find_column_None in Hnone. apply Hnone.
        rewrite <- Hc. by apply list_elem_of_fmap_2.
      * simpl. by apply NoDup_fmap_filter.
Qed.

Local Ltac sync_table_case H :=
  destruct H as [?Hframe ?Hpost];
  split_and!; [exact Hframe | done | intros _; exact Hpost].

Lemma sync_table_effect dcs tImpl preserve d r d' :
  sync_table dcs tImpl preserve d = (Ok r, d') →
  r = (schema_status dcs calculate_remove_add_columns
         tImpl d preserve None).1
  ∧ (∀ m, m ≠ table_name tImpl → tables d' !! m = tables d !! m)
  ∧ (r = already_in_sync → d' = d)
  ∧ (r ≠ already_in_sync → NoDup (column_name <$> elements tImpl) →
     ∃ live', tables d' !! table_name tImpl = Some live'
              ∧ synced (get_table_info tImpl) live'
              ∧ (unique_columns d → NoDup (name <$> live'))).
Proof.
  unfold sync_table.
  pose proof (schema_status_diff dcs tImpl d preserve (Some true)) as Hdiff.
  pose proof (schema_status_result_pointer dcs calculate_remove_add_columns
                tImpl d preserve (Some true) None) as Hptr.
  destruct (schema_status _ _ _ _ _ (Some true)) as [stat att].
  cbv zeta in Hdiff. cbn [fst] in Hdiff, Hptr.
  intros ([] & d1 & Hact & Hret)%bind_Ok_inv.
  injection Hret as <- <-. split; [done|]. clear Hptr.
  assert (table_exists d (table_name tImpl) = true →
          tables d !! table_name tImpl
          = Some (pragma_table_xinfo d (table_name tImpl))) as Hlive.
  { intros [live Hl]%table_exists_true. unfold pragma_table_xinfo.
    by rewrite Hl. }
  destruct stat.
  - injection Hact as <-. by repeat split.
  - unfold create_table in Hact.
    destruct (perform_void_exec_cases
                (CreateTable (table_name tImpl) (elements tImpl)
                   (is_without_rowid tImpl)) d)
      as [(t1 & He1 & Hp1)|Hp1]; rewrite Hp1 in Hact; [|done].
    injection Hact as <-.
    apply table_exists_false in Hdiff. simpl in He1. rewrite Hdiff in He1.
    injection He1 as <-.
    sync_table_case
      (recreated_effect tImpl d
         (mk_database
            (<[table_name tImpl := get_table_info tImpl]> (tables d))
            (user_version d)
            (journal d
             ++ [CreateTable (table_name tImpl) (elements tImpl)
                   (is_without_rowid tImpl)]))
         eq_refl).
  - destruct Hdiff as (Hex & Hinc & Hext).
    assert (drop_columns (table_name tImpl)
              (extraneous (classify (get_table_info tImpl)
                 (pragma_table_xinfo d (table_name tImpl)))) d = (Ok tt, d))
      as Hdrop by (by rewrite Hext).
    sync_table_case (altered_effect tImpl d d d1 _ (Hlive Hex) Hinc Hdrop Hact).
  - destruct Hdiff as (Hex & Hinc & Hadd).
    destruct preserve.
    + apply (backup_table_effect _ _ _ _ Hex) in Hact.
      sync_table_case (recreated_effect tImpl d _ Hact).
    + assert (add_columns tImpl
                (to_add (classify (get_table_info tImpl)
                   (pragma_table_xinfo d (table_name tImpl)))) d1
              = (Ok tt, d1)) as Hadd'
        by (rewrite Hadd; apply add_columns_nil).
      sync_table_case
        (altered_effect tImpl d d1 d1 _ (Hlive Hex) Hinc Hact Hadd').
  - destruct Hdiff as (Hex & Hinc).
    destruct preserve.
    + apply (backup_table_effect _ _ _ _ Hex) in Hact.
      sync_table_case (recreated_effect tImpl d _ Hact).
    + apply bind_Ok_inv in Hact as ([] & d2 & Hdrop & Hadd).
      sync_table_case
        (altered_effect tImpl d d2 d1 _ (Hlive Hex) Hinc Hdrop Hadd).
  - assert (tables d1
            = <[table_name tImpl := get_table_info tImpl]> (tables d)) as Ht.
    { destruct (preserve && _).
      - by apply (backup_table_effect _ _ _ _ Hdiff) in Hact.
      - by apply drop_create_with_loss_effect. }
    sync_table_case (recreated_effect tImpl d _ Ht).
Qed.

(** ** [sync_table] returns *)

Lemma add_column_for_each_ok n cs d live :
  tables d !! n = Some live →
  NoDup (column_name <$> cs) →
  (∀ c, c ∈ cs → column_name c ∉ name <$> live) →
  ∃ d', for_each (add_column n) cs d = (Ok tt, d').
Proof.
  revert d live. induction cs as [|c cs IH]; intros d live Hlive Hnd Hnew.
  - by exists d.
  - rewrite fmap_cons in Hnd. apply NoDup_cons in Hnd as [Hc Hnd].
    simpl. unfold mbind, M_bind, add_column at 1.
    rewrite (perform_void_exec_ok _ _
               (<[n := live ++ [column_info c]]> (tables d))).
    2:{ simpl. rewrite Hlive. simpl. unfold has_column.
        rewrite bool_decide_eq_false_2; [done|]. apply Hnew. by left. }
    apply (IH _ (live ++ [column_info c])); [|done|].
    + simpl. by rewrite lookup_insert_eq.
    + intros c' Hc'. rewrite fmap_app, elem_of_app.
      intros [Hin|Hin%list_elem_of_singleton].
      * apply (Hnew c'); [by right|done].
      * apply Hc. simpl in Hin. rewrite <- Hin. by apply list_elem_of_fmap_2.
Qed.

Lemma drop_columns_ok n cols d live :
  tables d !! n = Some live →
  NoDup (name <$> cols) →
  (∀ i, i ∈ cols → name i ∈ name <$> live) →
  ∃ d', drop_columns n cols d = (Ok tt, d').
Proof.
  unfold drop_columns.
  revert d live. induction cols as [|i cols IH]; intros d live Hlive Hnd Hold.
  - by exists d.
  - rewrite fmap_cons in Hnd. apply NoDup_cons in Hnd as [Hi Hnd].
    simpl. unfold mbind, M_bind, drop_column at 1.
    rewrite (perform_void_exec_ok _ _
               (<[n := filter (λ l, name l ≠ name i) live]> (tables d))).
    2:{ simpl. rewrite Hlive. simpl. unfold has_column.
        rewrite bool_decide_eq_true_2; [done|]. apply Hold. by left. }
    apply (IH _ (filter (λ l, name l ≠ name i) live)); [|done|].
    + simpl. by rewrite lookup_insert_eq.
    + intros i' Hi'.
      assert (name i' ∈ name <$> live) as Hin' by (apply Hold; by right).
      apply list_elem_of_fmap in Hin' as (l & Hl & Hin).
      apply list_elem_of_fmap. exists l. split; [done|].
      apply list_elem_of_filter. split; [|done].
      intros Heq. apply Hi. rewrite <- Heq, <- Hl.
      by apply list_elem_of_fmap_2.
Qed.

Lemma drop_extraneous_ok tImpl d live :
  tables d !! table_name tImpl = Some live →
  unique_columns d →
  ∃ d', drop_columns (table_name tImpl)
          (extraneous (classify (get_table_info tImpl) live)) d
        = (Ok tt, d').
Proof.
  intros Hlive Hwf. apply (drop_columns_ok _ _ _ live); [done| |].
  - simpl. apply NoDup_fmap_filter. by apply (Hwf (table_name tImpl)).
  - intros i [_ Hi]%list_elem_of_filter. by apply list_elem_of_fmap_2.
Qed.

(** The columns to add of a table [live0] can be added to a table that
    has no other columns than [live0]. *)
Lemma add_columns_ok tImpl d live0 live :
  tables d !! table_name tImpl = Some live →
  NoDup (column_name <$> elements tImpl) →
  (∀ x, x ∈ name <$> live → x ∈ name <$> live0) →
  ∃ d', add_columns tImpl
          (to_add (classify (get_table_info tImpl) live0)) d
        = (Ok tt, d').
Proof.
  intros Hlive Hnd Hsub. unfold add_columns.
  apply (add_column_for_each_ok _ _ _ live); [done| |].
  - by apply NoDup_fmap_filter.
  - intros c [Hc _]%list_elem_of_filter Hin.
    unfold has_column in Hc. apply bool_decide_eq_true in Hc.
    apply list_elem_of_fmap in Hc as (i & Hi & [Hnone _]%list_elem_of_filter).
    apply find_column_None in Hnone. apply Hnone.
    rewrite <- Hi. by apply Hsub.
Qed.

(** On a database whose tables have no two columns of one name, every
    statement of [sync_table] for a table declared without two columns of
    one name runs: [sync_table] returns, and the database stays so. *)
Lemma sync_table_returns dcs tImpl preserve d :
  NoDup (column_name <$> elements tImpl) → unique_columns d →
  ∃ r d', sync_table dcs tImpl preserve d = (Ok r, d') ∧ unique_columns d'.
Proof.
  intros Hcols Hwf.
  assert (∃ r d', sync_table dcs tImpl preserve d = (Ok r, d'))
    as (r & d' & Hrun).
  { unfold sync_table.
    pose proof (schema_status_diff dcs tImpl d preserve (Some true)) as Hdiff.
    destruct (schema_status _ _ _ _ _ (Some true)) as [stat att].
    cbv zeta in Hdiff. cbn [fst] in Hdiff.
    assert (∀ act : M unit,
              (∃ d1, act d = (Ok tt, d1)) →
              ∃ r d', (act ≫= λ _, mret stat) d = (Ok r, d')) as Hwrap.
    { intros act [d1 Hact]. exists stat, d1.
      unfold mbind, M_bind. by rewrite Hact. }
    assert (table_exists d (table_name tImpl) = true →
            tables d !! table_name tImpl
            = Some (pragma_table_xinfo d (table_name tImpl))) as Hlive.
    { intros [live Hl]%table_exists_true. unfold pragma_table_xinfo.
      by rewrite Hl. }
    assert (∀ ignore, table_exists d (table_name tImpl) = true →
              ∃ d1, backup_table tImpl ignore d = (Ok tt, d1)) as Hbackup.
    { intros ignore Hex.
      destruct (backup_table_name_total d (table_name tImpl)) as [bn Hbn].
      eexists. by apply (backup_table_ok _ _ _ bn). }
    destruct stat; apply Hwrap.
    - by exists d.
    - eexists. unfold create_table. apply perform_void_exec_ok. simpl.
      apply table_exists_false in Hdiff. by rewrite Hdiff.
    - destruct Hdiff as (Hex & _ & _).
      by apply (add_columns_ok _ _ _ _ (Hlive Hex)).
    - destruct Hdiff as (Hex & _ & _). destruct preserve.
      + by apply Hbackup.
      + by apply (drop_extraneous_ok _ _ _ (Hlive Hex)).
    - destruct Hdiff as (Hex & _). destruct preserve.
      + by apply Hbackup.
      + destruct (drop_extraneous_ok _ _ _ (Hlive Hex) Hwf) as [d2 Hdrop].
        unfold mbind, M_bind. rewrite Hdrop.
        apply (add_columns_ok _ _ _ _
                 (drop_columns_effect _ _ _ _ _ Hdrop (Hlive Hex)));
          [done|].
        intros x (l & -> & [_ Hl]%list_elem_of_filter)%list_elem_of_fmap.
        by apply list_elem_of_fmap_2.
    - destruct (preserve && _).
      + by apply Hbackup.
      + apply table_exists_true in Hdiff as [live Hl].
        eexists. unfold drop_create_with_loss, drop_table_internal,
          create_table, mbind, M_bind.
        rewrite (perform_void_exec_ok _ d
                   (delete (table_name tImpl) (tables d)))
          by (simpl; by rewrite Hl).
        apply perform_void_exec_ok. simpl. by rewrite lookup_delete_eq. }
  exists r, d'. split; [done|].
  apply sync_table_effect in Hrun as (_ & Hframe & Hidle & Hpost).
  intros n live Hn.
  destruct (decide (n = table_name tImpl)) as [->|Hne].
  - destruct (decide (r = already_in_sync)) as [Heq|Hneq].
    + rewrite (Hidle Heq) in Hn. by apply (Hwf _ _ Hn).
    + destruct (Hpost Hneq Hcols) as (live' & Hl & _ & Hnd).
      rewrite Hl in Hn. injection Hn as <-. by apply Hnd.
  - rewrite Hframe in Hn by done. by apply (Hwf _ _ Hn).
Qed.

(** ** [sync_schema] and [sync_schema_simulate] *)

Lemma sync_schema_for_each_returns dcs impl preserve result d :
  Forall (λ t, NoDup (column_name <$> elements t)) impl →
  unique_columns d →
  ∃ m d', sync_schema_for_each dcs impl preserve result d = (Ok m, d').
Proof.
  revert result d. induction impl as [|t impl IH]; intros result d; simpl.
  - intros _ _. by exists result, d.
  - intros [Hcols Hall]%Forall_cons Hwf.
    destruct (sync_table_returns dcs t preserve d Hcols Hwf)
      as (r & d1 & Hrun & Hwf1).
    unfold mbind, M_bind. rewrite Hrun. by apply IH.
Qed.

Lemma map_insert_lookup {V} (k k' : string) (v : V) (m : gmap string V) :
  map_insert k v m !! k'
  = match m !! k' with
    | Some v' => Some v'
    | None => if decide (k = k') then Some v else None
    end.
Proof.
  unfold map_insert. destruct (m !! k) as [v0|] eqn:Hk.
  - destruct (m !! k') eqn:Hk'; [done|]. case_decide; congruence.
  - destruct (decide (k = k')) as [<-|Hne].
    + by rewrite lookup_insert_eq, Hk.
    + rewrite lookup_insert_ne by done. by destruct (m !! k').
Qed.

Lemma sync_schema_simulate_for_each_pure dcs impl preserve result d :
  ∃ m, sync_schema_simulate_for_each dcs impl preserve result d = (Ok m, d).
Proof.
  revert result. induction impl as [|t impl IH]; intros result; simpl.
  - by eexists.
  - unfold mbind, M_bind. apply IH.
Qed.

(** Tables whose name has no entry yet are as they were at the start. *)
Lemma sync_schema_for_each_simulate dcs impl preserve result d0 d m d' :
  (∀ n, result !! n = None → tables d !! n = tables d0 !! n) →
  sync_schema_for_each dcs impl preserve result d = (Ok m, d') →
  sync_schema_simulate_for_each dcs impl preserve result d0 = (Ok m, d0).
Proof.
  revert result d. induction impl as [|t impl IH]; intros result d Hsame; simpl.
  - by intros [= <- <-].
  - intros (r & d1 & Ht & Himpl)%bind_Ok_inv.
    apply sync_table_effect in Ht as (-> & Hframe & _).
    unfold mbind, M_bind.
    destruct (result !! table_name t) as [r0|] eqn:Hres.
    + assert (∀ r, map_insert (table_name t) r result = result) as Hins
        by (intros r; unfold map_insert; by rewrite Hres).
      rewrite Hins in Himpl |- *. apply (IH result d1); [|done].
      intros n Hn. rewrite Hframe by congruence. by apply Hsame.
    + rewrite (schema_status_lookup dcs t d0 d) by (symmetry; by apply Hsame).
      apply (IH _ d1); [|done].
      intros n Hn. rewrite map_insert_lookup in Hn.
      destruct (result !! n) eqn:Hrn; [done|].
      case_decide as Hne; [done|].
      rewrite Hframe by congruence. by apply Hsame.
Qed.

(** C1: [sync_schema_simulate] returns, leaves the database as it is, and
    its map is the map [sync_schema] returns from the same state; and
    [sync_schema] does return when no declared table and no table of the
    database has two columns of one name. *)
Theorem sync_schema_simulate_agrees dcs impl preserve d :
  (∃ m, sync_schema_simulate dcs impl preserve d = (Ok m, d))
  ∧ (∀ m d', sync_schema dcs impl preserve d = (Ok m, d') →
             sync_schema_simulate dcs impl preserve d = (Ok m, d))
  ∧ (Forall (λ t, NoDup (column_name <$> elements t)) impl →
     unique_columns d →
     ∃ m d', sync_schema dcs impl preserve d = (Ok m, d')).
Proof.
  split_and!.
  - apply sync_schema_simulate_for_each_pure.
  - intros m d'. by apply sync_schema_for_each_simulate.
  - apply sync_schema_for_each_returns.
Qed.

Lemma sync_table_already_in_sync dcs tImpl preserve d :
  (schema_status dcs calculate_remove_add_columns tImpl d preserve None).1
  = already_in_sync →
  sync_table dcs tImpl preserve d = (Ok already_in_sync, d).
Proof.
  rewrite (schema_status_result_pointer _ _ _ _ _ None (Some true)).
  unfold sync_table.
  destruct (schema_status _ _ _ _ _ (Some true)) as [stat att].
  by intros [= ->].
Qed.

Lemma sync_schema_for_each_on dcs impl preserve result d m d' :
  sync_schema_for_each dcs impl preserve result d = (Ok m, d') →
  ∀ n, n ∉ table_name <$> impl → tables d' !! n = tables d !! n.
Proof.
  revert result d. induction impl as [|t impl IH]; intros result d; simpl.
  - by intros [= <- <-].
  - intros (r & d1 & Ht & Himpl)%bind_Ok_inv n [Hn Hnot]%not_elem_of_cons.
    apply sync_table_effect in Ht as (_ & Hframe & _).
    rewrite (IH _ _ Himpl n Hnot). by apply Hframe.
Qed.

(** After a run every table agrees with its declaration. *)
Lemma sync_schema_for_each_synced dcs impl preserve result d m d' :
  NoDup (table_name <$> impl) →
  Forall (λ t, NoDup (column_name <$> elements t)) impl →
  sync_schema_for_each dcs impl preserve result d = (Ok m, d') →
  ∀ t, t ∈ impl →
    (schema_status dcs calculate_remove_add_columns t d' preserve None).1
    = already_in_sync.
Proof.
  revert result d. induction impl as [|t impl IH]; intros result d; simpl.
  - intros _ _ _ t' []%elem_of_nil.
  - intros [Hfresh Hnd]%NoDup_cons [Hcols Hall]%Forall_cons
      (r & d1 & Ht & Himpl)%bind_Ok_inv t' [->|Ht']%elem_of_cons.
    + pose proof (sync_schema_for_each_on _ _ _ _ _ _ _ Himpl _ Hfresh)
        as Hkept.
      rewrite (schema_status_lookup dcs t d' d1) by done.
      apply sync_table_effect in Ht as (Hr & _ & Hidle & Hpost).
      destruct (decide (r = already_in_sync)) as [Heq|Hne].
      * rewrite (Hidle Heq). by rewrite <- Hr.
      * destruct (Hpost Hne Hcols) as (live' & Hlive' & Hsynced & _).
        by apply (schema_status_synced _ _ _ _ _ live').
    + by apply (IH _ _ Hnd Hall Himpl).
Qed.

(** A run on tables that agree with their declarations changes nothing
    and reports [already_in_sync] for each. *)
Lemma sync_schema_for_each_idle dcs impl preserve result d :
  (∀ t, t ∈ impl →
     (schema_status dcs calculate_remove_add_columns t d preserve None).1
     = already_in_sync) →
  (∀ k v, result !! k = Some v → v = already_in_sync) →
  ∃ m, sync_schema_for_each dcs impl preserve result d = (Ok m, d)
       ∧ (∀ k v, m !! k = Some v → v = already_in_sync)
       ∧ (∀ t, t ∈ impl → is_Some (m !! table_name t))
       ∧ (∀ k, is_Some (result !! k) → is_Some (m !! k)).
Proof.
  revert result. induction impl as [|t impl IH]; intros result Hall Hres; simpl.
  - exists result. split_and!; [done|done| |done].
    intros t []%elem_of_nil.
  - unfold mbind, M_bind.
    rewrite sync_table_already_in_sync by (apply Hall; by left).
    destruct (IH (map_insert (table_name t) already_in_sync result))
      as (m & Hrun & Hvals & Hdom & Hkeep).
    { intros t' Ht'. apply Hall. by right. }
    { intros k v. rewrite map_insert_lookup.
      destruct (result !! k) eqn:Hk; [intros [= <-]; by apply (Hres k)|].
      case_decide; [by intros [= <-]|done]. }
    exists m. split_and!; [done|done| |].
    + intros t' [->|Ht']%elem_of_cons; [|by apply Hdom].
      apply Hkeep. rewrite map_insert_lookup.
      destruct (result !! table_name t); [by eexists|].
      rewrite decide_True by done. by eexists.
    + intros k [v Hk]. apply Hkeep. rewrite map_insert_lookup, Hk.
      by eexists.
Qed.

(** C9 (as amended): when the declared tables have distinct names (and,
    as the data model requires, each table distinct column names), a
    second [sync_schema] after one that returned changes nothing and
    reports [already_in_sync] for every table. *)
Theorem sync_schema_idempotent dcs impl preserve d m d' :
  NoDup (table_name <$> impl) →
  Forall (λ t, NoDup (column_name <$> elements t)) impl →
  sync_schema dcs impl preserve d = (Ok m, d') →
  ∃ m', sync_schema dcs impl preserve d' = (Ok m', d')
        ∧ ∀ t, t ∈ impl → m' !! table_name t = Some already_in_sync.
Proof.
  intros Hnames Hcols Hrun.
  destruct (sync_schema_for_each_idle dcs impl preserve ∅ d')
    as (m' & Hrun' & Hvals & Hdom & _).
  - by apply (sync_schema_for_each_synced dcs impl preserve ∅ d m).
  - intros k v. by rewrite lookup_empty.
  - exists m'. split; [done|].
    intros t Ht. destruct (Hdom t Ht) as [v Hv].
    by rewrite Hv, (Hvals _ _ Hv).
Qed.

(** ** A table that does not exist *)

(** C5: for a declared table that does not exist in the database the
    result is [new_table_created], whatever [preserve] is, and
    [sync_table] creates the table. *)
Theorem schema_status_table_missing dcs calc tImpl d :
  table_exists d (table_name tImpl) = false →
  (∀ preserve cell,
     schema_status dcs calc tImpl d preserve cell
     = (new_table_created, (λ _, true) <$> cell))
  ∧ (∀ preserve,
       sync_table dcs tImpl preserve d
       = (Ok new_table_created,
          mk_database
            (<[table_name tImpl := get_table_info tImpl]> (tables d))
            (user_version d)
            (journal d
             ++ [CreateTable (table_name tImpl) (elements tImpl)
                   (is_without_rowid tImpl)]))).
Proof.
  intros Hex.
  assert (∀ calc' preserve cell,
            schema_status dcs calc' tImpl d preserve cell
            = (new_table_created, (λ _, true) <$> cell)) as Hstatus.
  { intros calc' preserve cell. unfold schema_status. by rewrite Hex. }
  split; [apply Hstatus|].
  intros preserve. unfold sync_table. rewrite Hstatus.
  unfold mbind, M_bind, create_table.
  rewrite (perform_void_exec_ok _ _
             (<[table_name tImpl := get_table_info tImpl]> (tables d))).
  - done.
  - simpl. apply table_exists_false in Hex. by rewrite Hex.
Qed.

(** ** Migrations *)

(** C8 (as amended): [migrate_to] throws [migration_not_found] when no
    migration is registered for the pair of the current [user_version] and
    [to], and else runs the registered migration on a connection container
    and returns or throws as the migration does: the lookup raises no
    error. So, unless the migration that runs throws this error itself,
    [migration_not_found] is thrown if and only if none is registered. *)
Theorem migrate_to_migration_not_found to s :
  (migrations s !! (user_version (db s), to) = None →
   migrate_to to s = (Throw (system_error migration_not_found), s))
  ∧ (∀ migration,
       migrations s !! (user_version (db s), to) = Some migration →
       migrate_to to s
       = ((migration (mk_connection_container (filename s)) (db s)).1,
          mk_storage (filename s) (migrations s)
            (migration (mk_connection_container (filename s)) (db s)).2))
  ∧ ((∀ migration,
        migrations s !! (user_version (db s), to) = Some migration →
        (migration (mk_connection_container (filename s)) (db s)).1
        ≠ Throw (system_error migration_not_found)) →
     ((migrate_to to s).1 = Throw (system_error migration_not_found)
      ↔ migrations s !! (user_version (db s), to) = None)).
Proof.
  unfold migrate_to.
  destruct (migrations s !! (user_version (db s), to)) as [migration|].
  - split_and!; [done| |].
    + intros ? [= <-]. by destruct (migration _ _).
    + intros Hown. specialize (Hown migration eq_refl).
      destruct (migration _ _) as [r d1]. simpl in *. by split.
  - split_and!; [done|done|]. by intros _.
Qed.

(** C10: a second [register_migration] for a pair of versions replaces the
    migration registered before, leaves the migrations of all other pairs
    as they are, and [migrate_to] then runs the second one. *)
Theorem register_migration_replaces from to m1 m2 s :
  let s2 := register_migration from to m2 (register_migration from to m1 s) in
  s2 = register_migration from to m2 s
  ∧ migrations s2 !! (from, to) = Some m2
  ∧ (∀ key, key ≠ (from, to) → migrations s2 !! key = migrations s !! key)
  ∧ (user_version (db s) = from →
     migrate_to to s2
     = ((m2 (mk_connection_container (filename s)) (db s)).1,
        mk_storage (filename s) (migrations s2)
          (m2 (mk_connection_container (filename s)) (db s)).2)).
Proof.
  unfold register_migration. simpl. split_and!.
  - by rewrite insert_insert_eq.
  - by rewrite lookup_insert_eq.
  - intros key Hkey. by rewrite !lookup_insert_ne.
  - intros <-. unfold migrate_to. simpl. rewrite lookup_insert_eq.
    by destruct (m2 _ _).
Qed.

(** * The properties on the example storages *)

Local Ltac by_computation := vm_compute; first [reflexivity | exact I | done].

Local Ltac decide_by_computation :=
  apply (bool_decide_unpack _); vm_compute; exact I.

(** ** Simulation *)

(** [sync_schema] on the old database recreates both tables, and
    [sync_schema_simulate] reports just that and changes nothing. *)
Lemma sync_schema_simulate_agrees_witness :
  sync_schema_simulate true [users; invoices] true old_database
  = (Ok (<["users" := dropped_and_recreated]>
           {["invoices" := dropped_and_recreated]}),
     old_database)
  ∧ ∃ m d', sync_schema true [users; invoices] true old_database = (Ok m, d').
Proof.
  destruct (sync_schema_simulate_agrees true [users; invoices] true
              old_database) as (_ & Hagree & Hreturns).
  split.
  - apply (Hagree _ (sync_schema true [users; invoices] true old_database).2).
    by_computation.
  - apply Hreturns; decide_by_computation.
Defined.

(** ** Columns to add that force a recreation *)

(** As stated, C2 has [false] written through [attempt_to_preserve] for a
    stored column to add. For [invoices], whose stored column [total] is
    to add, the flag is left set. *)
Lemma stored_column_clears_flag_counterexample :
  ¬ (∀ dcs tImpl d preserve b,
       table_exists d (table_name tImpl) = true →
       (∃ c, c ∈ (calculate_remove_add_columns (get_table_info tImpl)
                    (pragma_table_xinfo d (table_name tImpl))).1.2
             ∧ find_column_generated_storage_type tImpl (name c)
               = Some stored) →
       schema_status dcs calculate_remove_add_columns tImpl d preserve
         (Some b)
       = (dropped_and_recreated, Some false)).
Proof.
  intros Hclaim.
  specialize (Hclaim true invoices old_database true true eq_refl).
  assert (schema_status true calculate_remove_add_columns invoices
            old_database true (Some true)
          = (dropped_and_recreated, Some true)) as Hcode by by_computation.
  rewrite Hclaim in Hcode; [discriminate|].
  exists (column_info total_column). split; [|by_computation].
  decide_by_computation.
Qed.

Lemma schema_status_stored_column_to_add_witness :
  schema_status true calculate_remove_add_columns invoices old_database true
    (Some true)
  = (dropped_and_recreated, Some true).
Proof.
  destruct (schema_status_stored_column_to_add true
              calculate_remove_add_columns invoices old_database true
              (Some true) false [column_info total_column] []
              (column_info total_column)) as [Hres Hflag].
  - by_computation.
  - by_computation.
  - decide_by_computation.
  - by_computation.
  - apply injective_projections; [exact Hres|]. apply Hflag.
    intros c' Hc' (Hgen & _).
    apply list_elem_of_singleton in Hc'. subst c'.
    vm_compute in Hgen. discriminate.
Defined.

(** As stated, C3 has the backup still attempted when [preserve] is set,
    which is what a flag left set tells the caller of [schema_status].
    For [users], whose NOT NULL column [name] without default is to add,
    [false] is written through [attempt_to_preserve]. *)
Lemma not_null_column_keeps_flag_counterexample :
  ¬ (∀ dcs tImpl d,
       table_exists d (table_name tImpl) = true →
       (∃ c, c ∈ (calculate_remove_add_columns (get_table_info tImpl)
                    (pragma_table_xinfo d (table_name tImpl))).1.2
             ∧ find_column_generated_storage_type tImpl (name c) = None
             ∧ notnull c = true ∧ dflt_value c = EmptyString) →
       (∀ preserve,
          (schema_status dcs calculate_remove_add_columns tImpl d preserve
             (Some true)).1 = dropped_and_recreated)
       ∧ (schema_status dcs calculate_remove_add_columns tImpl d true
            (Some true)).2 = Some true).
Proof.
  intros Hclaim.
  destruct (Hclaim true users old_database eq_refl) as [_ Hflag].
  - exists (column_info name_column). split; [decide_by_computation|].
    by_computation.
  - vm_compute in Hflag. discriminate.
Qed.

Lemma schema_status_not_null_column_to_add_witness :
  (∀ preserve cell,
     (schema_status true calculate_remove_add_columns users old_database
        preserve cell).1 = dropped_and_recreated)
  ∧ (schema_status true calculate_remove_add_columns users old_database true
       (Some true)).2 = Some false.
Proof.
  destruct (schema_status_not_null_column_to_add true
              calculate_remove_add_columns users old_database false
              [column_info name_column; column_info age_column] []
              (column_info name_column)) as [Hres Hflag].
  - by_computation.
  - by_computation.
  - decide_by_computation.
  - by_computation.
  - by_computation.
  - by_computation.
  - split; [exact Hres|]. apply Hflag; [reflexivity|by left|].
    intros c' Hc' Hgen. unfold cannot_be_added_stored in Hgen.
    apply elem_of_cons in Hc' as [->|Hc'].
    + vm_compute in Hgen. discriminate.
    + apply list_elem_of_singleton in Hc'. subst c'.
      vm_compute in Hgen. discriminate.
Defined.

(** ** Extraneous columns *)

Lemma schema_status_extraneous_columns_only_witness :
  (schema_status true calculate_remove_add_columns users legacy_database
     false None).1 = old_columns_removed
  ∧ (schema_status false calculate_remove_add_columns users legacy_database
       false None).1 = dropped_and_recreated
  ∧ (schema_status false calculate_remove_add_columns users legacy_database
       true None).1 = old_columns_removed.
Proof.
  assert (∀ dcs preserve,
            (schema_status dcs calculate_remove_add_columns users
               legacy_database preserve None).1
            = if preserve then old_columns_removed
              else if dcs then old_columns_removed
                   else dropped_and_recreated) as Hres.
  { intros dcs preserve.
    apply (schema_status_extraneous_columns_only dcs
             calculate_remove_add_columns users legacy_database preserve None
             [column_info legacy_column]).
    - by_computation.
    - by_computation.
    - discriminate. }
  split_and!; apply Hres.
Defined.

(** ** A table that does not exist *)

Lemma schema_status_table_missing_witness :
  (∀ preserve,
     (schema_status true calculate_remove_add_columns users empty_database
        preserve None).1 = new_table_created)
  ∧ journal (sync_table true users true empty_database).2
    = [CreateTable "users" (elements users) false].
Proof.
  destruct (schema_status_table_missing true calculate_remove_add_columns
              users empty_database) as [Hstatus Hsync]; [by_computation|].
  split.
  - intros preserve. by rewrite Hstatus.
  - by rewrite Hsync.
Defined.

(** ** The backup table *)

Lemma backup_table_name_probing_witness :
  backup_table_name crowded_database "users" = Some "users_backup2".
Proof.
  apply (proj2 (backup_table_name_probing crowded_database "users"));
    by_computation.
Defined.

Lemma backup_table_steps_in_order_witness :
  (backup_table users [column_info legacy_column] legacy_database).1 = Ok tt
  ∧ journal
      (backup_table users [column_info legacy_column] legacy_database).2
    = [CreateTable "users_backup" (elements users) false;
       InsertSelect "users_backup" "users" ["id"; "name"; "age"];
       DropTable "users";
       AlterTableRenameTo "users_backup" "users"].
Proof.
  destruct (backup_table_steps_in_order users [column_info legacy_column]
              legacy_database)
    as (bn & k & Hname & Hst & Hk & Hjournal & Hok & Hex).
  assert (k = 4%nat) as -> by (apply Hex; by_computation).
  split; [by apply Hok|].
  rewrite Hjournal, Hst.
  vm_compute in Hname. injection Hname as <-. by_computation.
Defined.

(** ** Idempotence *)

(** As stated, C9 covers every declared schema. With two declarations
    under one name, [users] and [points], each run leaves the table as the
    last declaration has it, and the second run recreates it for the first
    declaration. *)
Lemma sync_schema_idempotent_counterexample :
  ¬ (∀ dcs impl preserve d m d',
       sync_schema dcs impl preserve d = (Ok m, d') →
       ∃ m', sync_schema dcs impl preserve d' = (Ok m', d')
             ∧ ∀ t, t ∈ impl → m' !! table_name t = Some already_in_sync).
Proof.
  intros Hclaim.
  destruct (Hclaim true [users; points] false empty_database
              {["users" := new_table_created]}
              (sync_schema true [users; points] false empty_database).2)
    as (m' & Hrun & Hall); [by_computation|].
  specialize (Hall users (list_elem_of_here _ _)).
  vm_compute in Hrun. injection Hrun as <-.
  vm_compute in Hall. discriminate Hall.
Qed.

Lemma sync_schema_idempotent_witness :
  ∃ m', sync_schema true [users; invoices] true
          (sync_schema true [users; invoices] true old_database).2
        = (Ok m', (sync_schema true [users; invoices] true old_database).2)
        ∧ ∀ t, t ∈ [users; invoices] →
               m' !! table_name t = Some already_in_sync.
Proof.
  apply (sync_schema_idempotent true [users; invoices] true old_database
           (<["users" := dropped_and_recreated]>
              {["invoices" := dropped_and_recreated]})).
  - decide_by_computation.
  - decide_by_computation.
  - by_computation.
Defined.

(** ** Migrations *)

(** As stated, C8 has [migration_not_found] thrown only when no migration
    is registered. A registered migration that throws it is not caught. *)
Lemma migrate_to_migration_not_found_counterexample :
  ¬ (∀ to s,
       (migrate_to to s).1 = Throw (system_error migration_not_found)
       ↔ migrations s !! (user_version (db s), to) = None).
Proof.
  intros Hclaim.
  destruct (Hclaim 1 (mk_storage "db.sqlite" {[ (0, 1) := nested_migration ]}
                        empty_database)) as [Hthrown _].
  specialize (Hthrown eq_refl). vm_compute in Hthrown. discriminate.
Qed.

Lemma migrate_to_migration_not_found_witness :
  migrate_to 2 example_storage
  = (Throw (system_error migration_not_found), example_storage)
  ∧ (migrate_to 1 example_storage).1 = Ok tt
  ∧ ((migrate_to 1 example_storage).1
     = Throw (system_error migration_not_found)
     ↔ migrations example_storage !! (0, 1) = None).
Proof.
  split_and!.
  - apply (proj1 (migrate_to_migration_not_found 2 example_storage)).
    by_computation.
  - rewrite (proj1 (proj2 (migrate_to_migration_not_found 1 example_storage))
               drop_legacy) by by_computation.
    by_computation.
  - apply (proj2 (proj2 (migrate_to_migration_not_found 1 example_storage))).
    intros migration Hm. vm_compute in Hm. injection Hm as <-.
    vm_compute. discriminate.
Defined.

Lemma register_migration_replaces_witness :
  let s2 := register_migration 0 1 create_invoices
              (register_migration 0 1 drop_legacy example_storage) in
  migrations s2 !! (0, 1) = Some create_invoices
  ∧ migrations s2 !! (1, 2) = migrations example_storage !! (1, 2)
  ∧ journal (db (migrate_to 1 s2).2)
    = [CreateTable "invoices" (elements invoices) false].
Proof.
  destruct (register_migration_replaces 0 1 drop_legacy create_invoices
              example_storage) as (_ & Hlookup & Hother & Hrun).
  split_and!.
  - exact Hlookup.
  - apply Hother. discriminate.
  - rewrite Hrun by by_computation. by_computation.
Defined.


(** * Further properties *)

(** ** The results of [schema_status] *)

Lemma columns_to_add_loop_false tImpl columnsToAdd cell :
  (columns_to_add_loop tImpl columnsToAdd cell).1 = false
  ↔ ∀ c, c ∈ columnsToAdd → can_be_added tImpl c.
Proof.
  unfold can_be_added, cannot_be_added_stored, cannot_be_added_not_null.
  induction columnsToAdd as [|c' rest IH]; simpl.
  - split; [|done]. intros _ c []%elem_of_nil.
  - destruct (find_column_generated_storage_type tImpl (name c')) as [g|]
      eqn:Hg.
    + case_decide as Hst; simpl.
      * split; [done|]. intros Hall.
        destruct (Hall c') as [Hno _]; [by left|]. subst g. by destruct Hno.
      * rewrite IH. split.
        -- intros Hall c [->|Hc]%elem_of_cons; [|by apply Hall].
           rewrite Hg. split; [congruence|]. by intros [? _].
        -- intros Hall c Hc. apply Hall. by right.
    + destruct (notnull c') eqn:Hn; simpl.
      * case_bool_decide as Hd; simpl.
        -- split; [done|]. intros Hall.
           destruct (Hall c') as [_ Hno]; [by left|]. by destruct Hno.
        -- rewrite IH. split.
           ++ intros Hall c [->|Hc]%elem_of_cons; [|by apply Hall].
              rewrite Hg. split; [done|]. by intros (_ & _ & ?).
           ++ intros Hall c Hc. apply Hall. by right.
      * rewrite IH. split.
        -- intros Hall c [->|Hc]%elem_of_cons; [|by apply Hall].
           rewrite Hg, Hn. split; [done|]. by intros (_ & ? & _).
        -- intros Hall c Hc. apply Hall. by right.
Qed.

(** The loop either leaves the flag alone or has met an ordinary NOT NULL
    column without default. *)
Lemma columns_to_add_loop_flag tImpl columnsToAdd cell :
  (columns_to_add_loop tImpl columnsToAdd cell).2 = cell
  ∨ ((columns_to_add_loop tImpl columnsToAdd cell).2 = (λ _, false) <$> cell
     ∧ (columns_to_add_loop tImpl columnsToAdd cell).1 = true
     ∧ ∃ c, c ∈ columnsToAdd ∧ cannot_be_added_not_null tImpl c).
Proof.
  unfold cannot_be_added_not_null.
  induction columnsToAdd as [|c' rest IH]; simpl; [by left|].
  assert ((∃ c, c ∈ rest
             ∧ find_column_generated_storage_type tImpl (name c) = None
             ∧ notnull c = true ∧ dflt_value c = EmptyString) →
          ∃ c, c ∈ c' :: rest
             ∧ find_column_generated_storage_type tImpl (name c) = None
             ∧ notnull c = true ∧ dflt_value c = EmptyString) as Hlift.
  { intros (c & Hc & ?). exists c. split; [by right|done]. }
  destruct (find_column_generated_storage_type tImpl (name c')) as [g|] eqn:Hg.
  - case_decide; [by left|]. destruct IH as [?|(? & ? & ?)]; [by left|].
    right. split_and!; [done..|]. by apply Hlift.
  - destruct (notnull c') eqn:Hn; simpl.
    + case_bool_decide as Hd; simpl.
      * right. split_and!; [done..|]. exists c'. split; [by left|done].
      * destruct IH as [?|(? & ? & ?)]; [by left|].
        right. split_and!; [done..|]. by apply Hlift.
    + destruct IH as [?|(? & ? & ?)]; [by left|].
      right. split_and!; [done..|]. by apply Hlift.
Qed.

Section schema_status_results.

Variable drop_column_supported : bool.
Variable calc :
  list table_xinfo → list table_xinfo →
  bool * list table_xinfo * list table_xinfo.

Local Abbreviation status := (schema_status drop_column_supported calc).

(** X1: [schema_status] reports [new_table_created] exactly for the tables
    that do not exist. *)
Theorem schema_status_new_table_created_iff tImpl d preserve cell :
  (status tImpl d preserve cell).1 = new_table_created
  ↔ table_exists d (table_name tImpl) = false.
Proof.
  unfold schema_status.
  destruct (table_exists d (table_name tImpl)); simpl; [|done].
  split; [|done].
  destruct (calc _ _) as [[ne toAdd] rest].
  destruct ne; simpl; [done|].
  destruct (bool_decide (rest = [])), preserve, drop_column_supported;
    simpl; try done;
    destruct (bool_decide (toAdd = [])); simpl; try done;
    destruct (columns_to_add_loop _ _ _) as [[] ?]; done.
Qed.

(** X2: [schema_status] reports [already_in_sync] exactly when the table
    exists, no column differs, none is to add and none is extraneous. *)
Theorem schema_status_already_in_sync_iff
    tImpl d preserve cell notEqual columnsToAdd dbTableInfo :
  calc (get_table_info tImpl) (pragma_table_xinfo d (table_name tImpl))
    = (notEqual, columnsToAdd, dbTableInfo) →
  (status tImpl d preserve cell).1 = already_in_sync
  ↔ table_exists d (table_name tImpl) = true
    ∧ notEqual = false ∧ columnsToAdd = [] ∧ dbTableInfo = [].
Proof.
  intros Hcalc. unfold schema_status. rewrite Hcalc.
  destruct (table_exists d (table_name tImpl)); simpl; [|by split; [|intros []]].
  destruct notEqual; simpl; [by split; [|intros (_ & ? & _)]|].
  destruct (decide (dbTableInfo = [])) as [->|Hrest];
    [rewrite bool_decide_eq_true_2 by done
    |rewrite bool_decide_eq_false_2 by done];
    (destruct (decide (columnsToAdd = [])) as [->|Hadd];
     [rewrite bool_decide_eq_true_2 by done
     |rewrite bool_decide_eq_false_2 by done]);
    destruct preserve, drop_column_supported; simpl;
    try (destruct (columns_to_add_loop _ _ _) as [[] ?]; simpl);
    split; try done; intros (_ & _ & ? & ?); done.
Qed.

(** X3: A column that differs gives [dropped_and_recreated] whatever
    [preserve] is and whatever is to add, and leaves the flag set. *)
Theorem schema_status_column_differs
    tImpl d preserve cell columnsToAdd dbTableInfo :
  table_exists d (table_name tImpl) = true →
  calc (get_table_info tImpl) (pragma_table_xinfo d (table_name tImpl))
    = (true, columnsToAdd, dbTableInfo) →
  status tImpl d preserve cell
  = (dropped_and_recreated, (λ _, true) <$> cell).
Proof.
  intros Hex Hcalc. unfold schema_status. by rewrite Hex, Hcalc.
Qed.

(** X4: [preserve] decides nothing except for a table with extraneous columns
    and no differing column on a database without DROP COLUMN. *)
Theorem schema_status_preserve_irrelevant
    tImpl d cell notEqual columnsToAdd dbTableInfo :
  calc (get_table_info tImpl) (pragma_table_xinfo d (table_name tImpl))
    = (notEqual, columnsToAdd, dbTableInfo) →
  drop_column_supported = true ∨ notEqual = true ∨ dbTableInfo = []
  ∨ table_exists d (table_name tImpl) = false →
  status tImpl d true cell = status tImpl d false cell.
Proof.
  intros Hcalc Hcase. unfold schema_status. rewrite Hcalc.
  destruct (table_exists d (table_name tImpl)); simpl; [|done].
  destruct notEqual; simpl; [done|].
  destruct (decide (dbTableInfo = [])) as [->|Hrest].
  { by rewrite bool_decide_eq_true_2. }
  rewrite bool_decide_eq_false_2 by done. simpl.
  destruct Hcase as [->|[?|[?|?]]]; done.
Qed.

(** X5: [false] is written through [attempt_to_preserve] only together with
    the result [dropped_and_recreated], and only for an ordinary NOT NULL
    column without default among the columns to add. *)
Theorem schema_status_flag_cleared
    tImpl d preserve b notEqual columnsToAdd dbTableInfo :
  calc (get_table_info tImpl) (pragma_table_xinfo d (table_name tImpl))
    = (notEqual, columnsToAdd, dbTableInfo) →
  (status tImpl d preserve (Some b)).2 = Some false →
  (status tImpl d preserve (Some b)).1 = dropped_and_recreated
  ∧ table_exists d (table_name tImpl) = true
  ∧ notEqual = false
  ∧ ∃ c, c ∈ columnsToAdd ∧ cannot_be_added_not_null tImpl c.
Proof.
  intros Hcalc. unfold schema_status. rewrite Hcalc.
  destruct (table_exists d (table_name tImpl)); simpl; [|done].
  destruct notEqual; simpl; [done|].
  pose proof (columns_to_add_loop_flag tImpl columnsToAdd (Some true))
    as Hloop.
  destruct (bool_decide (dbTableInfo = [])), preserve, drop_column_supported;
    simpl; try done;
    destruct (bool_decide (columnsToAdd = [])); simpl; try done;
    destruct (columns_to_add_loop _ _ _) as [g a]; simpl in *;
    destruct Hloop as [->|(-> & -> & Hc)]; simpl;
    try (destruct g; simpl; done); by intros _.
Qed.

(** X6: The three results that alter the table in place: each is reported
    exactly in its case, and columns are reported as added only when every
    column to add can be added. *)
Theorem schema_status_altered_in_place_iff
    tImpl d preserve cell columnsToAdd dbTableInfo :
  table_exists d (table_name tImpl) = true →
  calc (get_table_info tImpl) (pragma_table_xinfo d (table_name tImpl))
    = (false, columnsToAdd, dbTableInfo) →
  ((status tImpl d preserve cell).1 = new_columns_added
   ↔ dbTableInfo = [] ∧ columnsToAdd ≠ []
     ∧ ∀ c, c ∈ columnsToAdd → can_be_added tImpl c)
  ∧ ((status tImpl d preserve cell).1 = old_columns_removed
     ↔ dbTableInfo ≠ [] ∧ columnsToAdd = []
       ∧ (preserve = true ∨ drop_column_supported = true))
  ∧ ((status tImpl d preserve cell).1
     = new_columns_added_and_old_columns_removed
     ↔ dbTableInfo ≠ [] ∧ columnsToAdd ≠ []
       ∧ (preserve = true ∨ drop_column_supported = true)
       ∧ ∀ c, c ∈ columnsToAdd → can_be_added tImpl c).
Proof.
  intros Hex Hcalc. unfold schema_status. rewrite Hex, Hcalc. simpl.
  pose proof (columns_to_add_loop_false tImpl columnsToAdd
                ((λ _, true) <$> cell)) as Hloop.
  destruct (decide (dbTableInfo = [])) as [->|Hrest];
    [rewrite bool_decide_eq_true_2 by done
    |rewrite bool_decide_eq_false_2 by done];
    (destruct (decide (columnsToAdd = [])) as [->|Hadd];
     [rewrite bool_decide_eq_true_2 by done
     |rewrite bool_decide_eq_false_2 by done]);
    destruct preserve, drop_column_supported; simpl;
    try (destruct (columns_to_add_loop _ _ _) as [[] ?]; simpl in * );
    split_and!; split; try done; try tauto;
    try (intros _; split_and!; try done; try tauto; by apply Hloop);
    try (intros (_ & _ & Hall); by apply Hloop in Hall);
    try (intros (_ & _ & _ & Hall); by apply Hloop in Hall);
    try (intros (_ & _ & [?|?] & _); done);
    try (intros (_ & _ & [?|?]); done).
Qed.

(** X7: The flag is always written first: what the cell held before the call
    does not matter, and neither does the pointer for the result. *)
Theorem schema_status_flag_initialised tImpl d preserve b b' :
  schema_status drop_column_supported calc tImpl d preserve (Some b)
  = schema_status drop_column_supported calc tImpl d preserve (Some b')
  ∧ is_Some (schema_status drop_column_supported calc tImpl d preserve
               (Some b)).2
  ∧ schema_status drop_column_supported calc tImpl d preserve None
    = ((schema_status drop_column_supported calc tImpl d preserve
          (Some b)).1, None).
Proof.
  split; [done|]. unfold schema_status.
  assert (∀ l, (columns_to_add_loop tImpl l None).2 = None
               ∧ is_Some (columns_to_add_loop tImpl l (Some true)).2
               ∧ (columns_to_add_loop tImpl l None).1
                 = (columns_to_add_loop tImpl l (Some true)).1) as Hloop.
  { induction l as [|c l IH]; simpl; [by split_and!; [|eexists|]|].
    destruct (find_column_generated_storage_type tImpl (name c)).
    - case_decide; [by split_and!; [|eexists|]|done].
    - destruct (notnull c && _); [by split_and!; [|eexists|]|done]. }
  destruct (table_exists d (table_name tImpl)); simpl;
    [|by split; [eexists|]].
  destruct (calc _ _) as [[ne toAdd] rest].
  destruct ne; simpl; [by split; [eexists|]|].
  destruct (Hloop toAdd) as (Hnone & Hsome & Hres).
  destruct (bool_decide (rest = [])), preserve, drop_column_supported;
    simpl; try (by split; [eexists|]);
    destruct (bool_decide (toAdd = [])); simpl; try (by split; [eexists|]);
    destruct (columns_to_add_loop tImpl toAdd None) as [g1 a1],
             (columns_to_add_loop tImpl toAdd (Some true)) as [g2 a2];
    simpl in *; subst; by destruct g2.
Qed.

End schema_status_results.

(** ** [add_generated_cols] *)

Lemma add_generated_cols_app columnsToAdd storageTableInfo :
  add_generated_cols columnsToAdd storageTableInfo
  = columnsToAdd ++ filter (λ i, hidden i = true) storageTableInfo.
Proof.
  revert columnsToAdd.
  induction storageTableInfo as [|i rest IH]; intros columnsToAdd; simpl.
  - by rewrite app_nil_r.
  - rewrite IH. destruct (hidden i) eqn:Hi.
    + rewrite filter_cons_True by done. by rewrite <- app_assoc.
    + rewrite filter_cons_False; [done|]. by rewrite Hi.
Qed.

(** X8: [add_generated_cols] keeps [columnsToAdd] as it is and appends the
    hidden columns of [storageTableInfo] in their order; it does not look
    whether a column is there already, so its length grows by the number of
    hidden columns on every call. *)
Theorem add_generated_cols_appends_hidden columnsToAdd storageTableInfo :
  add_generated_cols columnsToAdd storageTableInfo
  = columnsToAdd ++ filter (λ i, hidden i = true) storageTableInfo
  ∧ (∀ c, c ∈ add_generated_cols columnsToAdd storageTableInfo
          ↔ c ∈ columnsToAdd ∨ (c ∈ storageTableInfo ∧ hidden c = true))
  ∧ length (add_generated_cols
              (add_generated_cols columnsToAdd storageTableInfo)
              storageTableInfo)
    = (length columnsToAdd
       + 2 * length (filter (λ i, hidden i = true) storageTableInfo))%nat.
Proof.
  split_and!.
  - apply add_generated_cols_app.
  - intros c. rewrite add_generated_cols_app, elem_of_app, list_elem_of_filter.
    tauto.
  - rewrite !add_generated_cols_app, !length_app. lia.
Qed.

(** ** Recreating a table *)

(** X9: [drop_create_with_loss] runs DROP TABLE and then CREATE TABLE on a
    table that exists; on one that does not, the DROP TABLE throws and the
    table is not created. *)
Theorem drop_create_with_loss_cases tImpl d :
  (table_exists d (table_name tImpl) = true →
   drop_create_with_loss tImpl d
   = (Ok tt,
      mk_database
        (<[table_name tImpl := get_table_info tImpl]> (tables d))
        (user_version d)
        (journal d
         ++ [DropTable (table_name tImpl);
             CreateTable (table_name tImpl) (elements tImpl)
               (is_without_rowid tImpl)])))
  ∧ (table_exists d (table_name tImpl) = false →
     drop_create_with_loss tImpl d
     = (Throw (sqlite_error (DropTable (table_name tImpl))), d)).
Proof.
  unfold drop_create_with_loss, drop_table_internal, create_table,
    mbind, M_bind.
  split.
  - intros [live Hlive]%table_exists_true.
    rewrite (perform_void_exec_ok _ d (delete (table_name tImpl) (tables d)))
      by (simpl; by rewrite Hlive).
    rewrite (perform_void_exec_ok _ _
               (<[table_name tImpl := get_table_info tImpl]> (tables d))).
    + simpl. by rewrite <- app_assoc.
    + simpl. rewrite lookup_delete_eq. by rewrite insert_delete_eq.
  - intros Hmiss%table_exists_false.
    rewrite perform_void_exec_throw; [done|]. simpl. by rewrite Hmiss.
Qed.

(** X10: On a table that does not exist [backup_table] creates the backup
    table, throws at the copy and leaves the backup table behind; the next
    call settles on another name. *)
Theorem backup_table_missing_table tableImpl columnsToIgnore d :
  table_exists d (table_name tableImpl) = false →
  ∃ backupTableName,
    backup_table_name d (table_name tableImpl) = Some backupTableName
    ∧ let left_behind :=
        mk_database
          (<[backupTableName := get_table_info tableImpl]> (tables d))
          (user_version d)
          (journal d
           ++ [CreateTable backupTableName (elements tableImpl)
                 (is_without_rowid tableImpl)]) in
      backup_table tableImpl columnsToIgnore d
      = (Throw (sqlite_error
                  (InsertSelect backupTableName (table_name tableImpl)
                     (copy_column_names tableImpl [] columnsToIgnore))),
         left_behind)
      ∧ ∀ nextName,
          backup_table_name left_behind (table_name tableImpl)
          = Some nextName →
          nextName ≠ backupTableName.
Proof.
  intros Hmiss%table_exists_false.
  destruct (backup_table_name_total d (table_name tableImpl)) as [bn Hbn].
  destruct (backup_table_name_free _ _ _ Hbn) as [Hfree Hne].
  exists bn. split; [done|]. split.
  - unfold backup_table. rewrite Hbn.
    unfold create_table, copy_table, mbind, M_bind.
    rewrite (perform_void_exec_ok _ _
               (<[bn := get_table_info tableImpl]> (tables d)))
      by (simpl; by rewrite Hfree).
    assert (table_name tableImpl ≠ bn) as Hne' by congruence.
    unfold pragma_table_xinfo. simpl.
    rewrite lookup_insert_ne, Hmiss by done. simpl.
    rewrite perform_void_exec_throw; [done|]. simpl.
    by rewrite lookup_insert_eq, lookup_insert_ne, Hmiss.
  - intros nextName [Hnext _]%backup_table_name_free ->.
    simpl in Hnext. by rewrite lookup_insert_eq in Hnext.
Qed.

(** X11: When [backup_table] and [drop_create_with_loss] both return on
    the same database, they end in the same tables: the table has the
    declared columns, every other table, earlier backup tables included,
    is as before, and none is left under the backup name. *)
Theorem backup_table_and_loss_same_tables
    tableImpl columnsToIgnore d d1 d2 :
  backup_table tableImpl columnsToIgnore d = (Ok tt, d1) →
  drop_create_with_loss tableImpl d = (Ok tt, d2) →
  tables d1 = tables d2
  ∧ tables d1
    = <[table_name tableImpl := get_table_info tableImpl]> (tables d)
  ∧ (∀ backupTableName,
       backup_table_name d (table_name tableImpl) = Some backupTableName →
       tables d1 !! backupTableName = None).
Proof.
  intros Hbackup Hloss.
  assert (table_exists d (table_name tableImpl) = true) as Hex.
  { destruct (table_exists d (table_name tableImpl)) eqn:Hex; [done|].
    apply table_exists_false in Hex.
    unfold drop_create_with_loss, drop_table_internal, mbind, M_bind
      in Hloss.
    rewrite perform_void_exec_throw in Hloss; [done|].
    simpl. by rewrite Hex. }
  pose proof (backup_table_effect _ _ _ _ Hex Hbackup) as Hd1.
  pose proof (drop_create_with_loss_effect _ _ _ Hloss) as Hd2.
  split_and!; [congruence|done|].
  intros bn Hbn. destruct (backup_table_name_free _ _ _ Hbn) as [Hfree Hne].
  by rewrite Hd1, lookup_insert_ne.
Qed.

(** ** [sync_schema] and the tables it has no declaration for *)

Lemma keeps_user_version_exec st : keeps_user_version (perform_void_exec st).
Proof.
  intros d. by destruct (perform_void_exec_cases st d) as [(t & _ & ->)| ->].
Qed.

Lemma keeps_user_version_bind {A B} (m : M A) (k : A → M B) :
  keeps_user_version m → (∀ a, keeps_user_version (k a)) →
  keeps_user_version (m ≫= k).
Proof.
  intros Hm Hk d. unfold mbind, M_bind. specialize (Hm d).
  destruct (m d) as [[a|e] d1]; simpl in *; [|done].
  by rewrite (Hk a d1).
Qed.

Lemma keeps_user_version_ret {A} (a : A) : keeps_user_version (mret a).
Proof. by intros d. Qed.

Lemma keeps_user_version_for_each {A} (f : A → M unit) l :
  (∀ a, keeps_user_version (f a)) → keeps_user_version (for_each f l).
Proof.
  intros Hf. induction l as [|a l IH]; simpl.
  - apply keeps_user_version_ret.
  - apply keeps_user_version_bind; [apply Hf|done].
Qed.

Lemma keeps_user_version_backup_table tableImpl columnsToIgnore :
  keeps_user_version (backup_table tableImpl columnsToIgnore).
Proof.
  intros d. unfold backup_table.
  destruct (backup_table_name d (table_name tableImpl)) as [bn|]; [|done].
  apply keeps_user_version_bind; [apply keeps_user_version_exec|intros _].
  apply keeps_user_version_bind; [|intros _].
  { intros d1. apply keeps_user_version_exec. }
  apply keeps_user_version_bind; [apply keeps_user_version_exec|intros _].
  apply keeps_user_version_exec.
Qed.

Lemma keeps_user_version_sync_table dcs tImpl preserve :
  keeps_user_version (sync_table dcs tImpl preserve).
Proof.
  intros d. unfold sync_table.
  destruct (schema_status _ _ _ _ _ _) as [stat att].
  apply keeps_user_version_bind; [|intros _; apply keeps_user_version_ret].
  assert (∀ cols, keeps_user_version (add_columns tImpl cols)) as Hadd.
  { intros cols. apply keeps_user_version_for_each.
    intros c. apply keeps_user_version_exec. }
  assert (∀ cols, keeps_user_version (drop_columns (table_name tImpl) cols))
    as Hdrop.
  { intros cols. apply keeps_user_version_for_each.
    intros c. apply keeps_user_version_exec. }
  destruct stat.
  - apply keeps_user_version_ret.
  - apply keeps_user_version_exec.
  - apply Hadd.
  - destruct preserve; [apply keeps_user_version_backup_table|apply Hdrop].
  - destruct preserve; [apply keeps_user_version_backup_table|].
    apply keeps_user_version_bind; [apply Hdrop|intros _; apply Hadd].
  - destruct (preserve && _); [apply keeps_user_version_backup_table|].
    apply keeps_user_version_bind; [apply keeps_user_version_exec|intros _].
    apply keeps_user_version_exec.
Qed.

Lemma keeps_user_version_sync_schema_for_each dcs impl preserve result :
  keeps_user_version (sync_schema_for_each dcs impl preserve result).
Proof.
  revert result. induction impl as [|t impl IH]; intros result; simpl.
  - apply keeps_user_version_ret.
  - apply keeps_user_version_bind; [apply keeps_user_version_sync_table|].
    intros r. apply IH.
Qed.

(** X12: [sync_schema] never writes [user_version], whether it returns or
    throws; and when it returns, every table without a declaration is as it
    was: tables in excess are ignored, not dropped. *)
Theorem sync_schema_leaves_the_rest dcs impl preserve d :
  user_version (sync_schema dcs impl preserve d).2 = user_version d
  ∧ ∀ m d', sync_schema dcs impl preserve d = (Ok m, d') →
      ∀ n, n ∉ table_name <$> impl → tables d' !! n = tables d !! n.
Proof.
  split; [apply keeps_user_version_sync_schema_for_each|].
  intros m d' Hrun. by apply (sync_schema_for_each_on _ _ _ _ _ _ _ Hrun).
Qed.

(** ** [sync_schema] on tables that do not exist *)

Lemma sync_table_missing dcs tImpl preserve d :
  tables d !! table_name tImpl = None →
  sync_table dcs tImpl preserve d
  = (Ok new_table_created,
     mk_database
       (<[table_name tImpl := get_table_info tImpl]> (tables d))
       (user_version d)
       (journal d
        ++ [CreateTable (table_name tImpl) (elements tImpl)
              (is_without_rowid tImpl)])).
Proof.
  intros Hmiss. unfold sync_table, schema_status.
  rewrite (proj2 (table_exists_false d (table_name tImpl)) Hmiss). simpl.
  unfold mbind, M_bind, create_table.
  rewrite (perform_void_exec_ok _ _
             (<[table_name tImpl := get_table_info tImpl]> (tables d)));
    [done|]. simpl. by rewrite Hmiss.
Qed.

Lemma sync_schema_for_each_keeps dcs impl preserve result d m d' k v :
  sync_schema_for_each dcs impl preserve result d = (Ok m, d') →
  result !! k = Some v → m !! k = Some v.
Proof.
  revert result d. induction impl as [|t impl IH]; intros result d; simpl.
  - by intros [= <- <-].
  - intros (r & d1 & _ & Himpl)%bind_Ok_inv Hk.
    apply (IH _ _ Himpl). by rewrite map_insert_lookup, Hk.
Qed.

Lemma sync_schema_for_each_lookup_None dcs impl preserve result d m d' k :
  sync_schema_for_each dcs impl preserve result d = (Ok m, d') →
  result !! k = None → k ∉ table_name <$> impl → m !! k = None.
Proof.
  revert result d. induction impl as [|t impl IH]; intros result d; simpl.
  - by intros [= <- <-].
  - intros (r & d1 & _ & Himpl)%bind_Ok_inv Hk [Hne Hnot]%not_elem_of_cons.
    apply (IH _ _ Himpl); [|done].
    rewrite map_insert_lookup, Hk. by rewrite decide_False.
Qed.

Lemma sync_schema_for_each_created dcs impl preserve result d m d' t :
  NoDup (table_name <$> impl) → t ∈ impl →
  tables d !! table_name t = None → result !! table_name t = None →
  sync_schema_for_each dcs impl preserve result d = (Ok m, d') →
  m !! table_name t = Some new_table_created
  ∧ tables d' !! table_name t = Some (get_table_info t).
Proof.
  revert result d. induction impl as [|h impl IH]; intros result d; simpl.
  - intros _ []%elem_of_nil.
  - intros [Hfresh Hnd]%NoDup_cons Ht Hmiss Hres
      (r & d1 & Hh & Himpl)%bind_Ok_inv.
    apply elem_of_cons in Ht as [->|Ht].
    + rewrite (sync_table_missing _ _ _ _ Hmiss) in Hh.
      injection Hh as <- <-. split.
      * apply (sync_schema_for_each_keeps _ _ _ _ _ _ _ _ _ Himpl).
        rewrite map_insert_lookup, Hres. by rewrite decide_True.
      * rewrite (sync_schema_for_each_on _ _ _ _ _ _ _ Himpl _ Hfresh).
        simpl. by rewrite lookup_insert_eq.
    + assert (table_name t ≠ table_name h) as Hne.
      { intros Heq. apply Hfresh. rewrite <- Heq.
        by apply list_elem_of_fmap_2. }
      apply sync_table_effect in Hh as (_ & Hframe & _).
      apply (IH (map_insert (table_name h) r result) d1 Hnd Ht);
        [by rewrite Hframe| |done].
      rewrite map_insert_lookup, Hres. rewrite decide_False; [done|].
      congruence.
Qed.



(** ** The map of [sync_schema_simulate] *)

Lemma sync_schema_simulate_for_each_lookup dcs impl preserve result d :
  ∃ m, sync_schema_simulate_for_each dcs impl preserve result d = (Ok m, d)
       ∧ ∀ n, m !! n
              = match result !! n with
                | Some v => Some v
                | None =>
                    (λ it : nat * table_t,
                       (schema_status dcs calculate_remove_add_columns
                          it.2 d preserve None).1)
                    <$> list_find (λ t, table_name t = n) impl
                end.
Proof.
  revert result. induction impl as [|t impl IH]; intros result; simpl.
  - exists result. split; [done|]. intros n. by destruct (result !! n).
  - unfold mbind, M_bind.
    destruct (IH (map_insert (table_name t)
                    (schema_status dcs calculate_remove_add_columns
                       t d preserve None).1 result)) as (m & Hrun & Hm).
    exists m. split; [done|]. intros n.
    rewrite Hm, map_insert_lookup.
    destruct (result !! n); [done|].
    case_decide; [done|].
    by destruct (list_find (λ t0, table_name t0 = n) impl) as [[i t']|].
Qed.

Lemma NoDup_fmap_elem_of_inj {A B} (f : A → B) (l : list A) x y :
  NoDup (f <$> l) → x ∈ l → y ∈ l → f x = f y → x = y.
Proof.
  induction l as [|a l IH]; simpl.
  - by intros _ ?%elem_of_nil.
  - intros [Hfresh Hnd]%NoDup_cons [->|Hx]%elem_of_cons [->|Hy]%elem_of_cons
      Heq; [done| | |by apply IH].
    + destruct Hfresh. rewrite Heq. by apply list_elem_of_fmap_2.
    + destruct Hfresh. rewrite <- Heq. by apply list_elem_of_fmap_2.
Qed.

(** X14: [sync_schema_simulate] returns and leaves the database as it is.
    Its map has an entry exactly for the declared table names, and every
    entry is the result of [schema_status] on that same database for a
    declaration of that name: for the declaration of that name when the
    names are distinct; this in whatever order the tables are visited. *)
Theorem sync_schema_simulate_entries dcs impl visited preserve d :
  visited ≡ₚ impl →
  ∃ m, sync_schema_simulate dcs visited preserve d = (Ok m, d)
       ∧ (∀ n, is_Some (m !! n) ↔ n ∈ table_name <$> impl)
       ∧ (∀ n r, m !! n = Some r →
            ∃ t, t ∈ impl ∧ table_name t = n
                 ∧ r = (schema_status dcs calculate_remove_add_columns
                          t d preserve None).1)
       ∧ (NoDup (table_name <$> impl) →
          ∀ t, t ∈ impl →
            m !! table_name t
            = Some (schema_status dcs calculate_remove_add_columns
                      t d preserve None).1).
Proof.
  intros Hperm.
  destruct (sync_schema_simulate_for_each_lookup dcs visited preserve ∅ d)
    as (m & Hrun & Hm).
  assert (∀ n r, m !! n = Some r →
            ∃ t, t ∈ impl ∧ table_name t = n
                 ∧ r = (schema_status dcs calculate_remove_add_columns
                          t d preserve None).1) as Hentry.
  { intros n r. rewrite Hm, lookup_empty.
    destruct (list_find (λ t, table_name t = n) visited) as [[i t]|] eqn:Hfind;
      [|done].
    intros [= <-]. apply list_find_Some in Hfind as (Hi & Hn & _).
    exists t. split_and!; [|done..].
    rewrite <- Hperm. by apply list_elem_of_lookup_2 in Hi. }
  assert (∀ n, is_Some (m !! n) ↔ n ∈ table_name <$> impl) as Hdom.
  { intros n. split.
    - intros [r (t & Ht & <- & _)%Hentry]. by apply list_elem_of_fmap_2.
    - intros (t & -> & Ht)%list_elem_of_fmap. rewrite <- Hperm in Ht.
      rewrite Hm, lookup_empty.
      destruct (list_find_elem_of (λ t', table_name t' = table_name t)
                  visited t Ht eq_refl) as [[i t'] ->].
      by eexists. }
  exists m. split_and!; [done..|].
  intros Hnd t Ht.
  destruct (proj2 (Hdom (table_name t))) as [r Hr];
    [by apply list_elem_of_fmap_2|].
  rewrite Hr. destruct (Hentry _ _ Hr) as (t' & Ht' & Hname & ->).
  by rewrite (NoDup_fmap_elem_of_inj table_name impl t' t Hnd Ht' Ht Hname).
Qed.

(** ** [rename_table<O>] and [tablename<O>] *)

(** X15: [tablename<O>] after [rename_table<O>] is the new name; the names of
    the other tables and the columns of all tables stay. *)
Theorem tablename_rename_table o o' name impl tImpl :
  impl !! o = Some tImpl →
  mapped.tablename o (mapped.rename_table o name impl) = Some name
  ∧ (o' ≠ o →
     mapped.tablename o' (mapped.rename_table o name impl)
     = mapped.tablename o' impl)
  ∧ get_table_info <$> mapped.rename_table o name impl
    = get_table_info <$> impl.
Proof.
  intros Ho. unfold mapped.tablename, mapped.rename_table. split_and!.
  - by rewrite list_lookup_alter_eq, Ho.
  - intros Hne. by rewrite list_lookup_alter_ne.
  - apply list_eq. intros i. rewrite !list_lookup_fmap.
    destruct (decide (i = o)) as [->|Hne].
    + by rewrite list_lookup_alter_eq, Ho.
    + by rewrite list_lookup_alter_ne.
Qed.

(** X16: [rename_table<O>] does not rename the table of the database. A
    [sync_schema] after it creates a table under the new name, with the
    declared columns, reports [new_table_created] for it, and leaves the
    table of the old name as it is, without an entry in the map. *)
Theorem rename_table_then_sync_schema
    dcs o name impl tImpl preserve d m d' :
  impl !! o = Some tImpl →
  NoDup (table_name <$> mapped.rename_table o name impl) →
  table_name tImpl ∉ table_name <$> mapped.rename_table o name impl →
  table_exists d name = false →
  sync_schema dcs (mapped.rename_table o name impl) preserve d
    = (Ok m, d') →
  m !! name = Some new_table_created
  ∧ tables d' !! name = Some (get_table_info tImpl)
  ∧ m !! table_name tImpl = None
  ∧ tables d' !! table_name tImpl = tables d !! table_name tImpl.
Proof.
  intros Ho Hnd Hold Hmiss%table_exists_false Hrun.
  set (renamed := mk_table name (elements tImpl) (is_without_rowid tImpl)).
  assert (renamed ∈ mapped.rename_table o name impl) as Hin.
  { apply list_elem_of_lookup. exists o.
    unfold mapped.rename_table. by rewrite list_lookup_alter_eq, Ho. }
  destruct (sync_schema_for_each_created dcs _ preserve ∅ d m d' renamed
              Hnd Hin Hmiss (lookup_empty _) Hrun) as [Hm Ht].
  split_and!; [done|done| |].
  - by apply (sync_schema_for_each_lookup_None _ _ _ _ _ _ _ _ Hrun).
  - by apply (sync_schema_for_each_on _ _ _ _ _ _ _ Hrun).
Qed.

(** ** The registry of migrations *)

(** X17: After any sequence of [register_migration] calls the migration of a
    pair of versions is the one registered last for that pair, whatever was
    registered for other pairs in between, and the one the storage had when
    none was registered; the database is not touched. *)
Theorem register_migrations_last_wins registrations s key :
  migrations (register_migrations registrations s) !! key
  = match last (filter (λ r, r.1 = key) registrations) with
    | Some r => Some r.2
    | None => migrations s !! key
    end
  ∧ db (register_migrations registrations s) = db s.
Proof.
  unfold register_migrations.
  induction registrations as [|r registrations IH] using rev_ind;
    [done|].
  rewrite foldl_snoc, filter_app. destruct IH as [IHm IHd].
  split; [|done]. simpl.
  destruct (decide (r.1 = key)) as [Hr|Hr].
  - rewrite (filter_cons_True _ r) by done.
    rewrite filter_nil, last_snoc.
    destruct r as [[from to] m]. simpl in *. subst key.
    by rewrite lookup_insert_eq.
  - rewrite (filter_cons_False _ r) by done.
    rewrite filter_nil, app_nil_r.
    destruct r as [[from to] m]. simpl in *.
    by rewrite lookup_insert_ne.
Qed.

(** X18: [migrate_to] writes neither the registry nor [user_version]: the
    version is what the migration leaves. After a migration that returns
    without changing the version, [migrate_to] runs the same migration
    again; after one that sets the version to [to], a second
    [migrate_to(to)] throws [migration_not_found] unless a migration from
    [to] to [to] is registered. *)
Theorem migrate_to_leaves_version_to_migration to s migration d1 :
  migrations s !! (user_version (db s), to) = Some migration →
  migration (mk_connection_container (filename s)) (db s) = (Ok tt, d1) →
  let s1 := mk_storage (filename s) (migrations s) d1 in
  migrate_to to s = (Ok tt, s1)
  ∧ (user_version d1 = user_version (db s) →
     migrate_to to s1
     = ((migration (mk_connection_container (filename s)) d1).1,
        mk_storage (filename s) (migrations s)
          (migration (mk_connection_container (filename s)) d1).2))
  ∧ (user_version d1 = to → migrations s !! (to, to) = None →
     migrate_to to s1 = (Throw (system_error migration_not_found), s1)).
Proof.
  intros Hreg Hrun. simpl. split_and!.
  - unfold migrate_to. by rewrite Hreg, Hrun.
  - intros Hsame. unfold migrate_to. simpl. rewrite Hsame, Hreg.
    by destruct (migration _ d1).
  - intros <- Hnone. unfold migrate_to, migration_t, M in *. simpl.
    by rewrite Hnone.
Qed.

(** ** The parameters [execute] binds *)

Section execute_properties.

Context {O : Type}.
Variable bind : Z → O → column_t → bool.
Variable perform_step : list (Z * O * column_t) → bool.
Variable last_insert_rowid : list (Z * O * column_t) → Z.

Lemma numbered_cons (first : Z) (field : O * column_t) fields :
  numbered first (field :: fields)
  = (first, field.1, field.2) :: numbered (first + 1) fields.
Proof.
  unfold numbered. simpl. f_equal.
  - by rewrite Z.add_0_r.
  - apply imap_ext. intros i x _. simpl. do 2 f_equal. lia.
Qed.

Lemma bind_sequence_app fields1 fields2 (stmt : stmt_t O) :
  bind_sequence bind (fields1 ++ fields2) stmt
  = (let '(ok, stmt') := bind_sequence bind fields1 stmt in
     if ok then bind_sequence bind fields2 stmt' else (false, stmt')).
Proof.
  revert stmt. induction fields1 as [|field fields1 IH]; intros stmt;
    simpl; [done|].
  destruct (bind_field bind field.1 field.2 stmt) as [[] stmt']; [|done].
  apply IH.
Qed.

Lemma for_each_column_bind_sequence (skip : column_t → bool) (object : O)
    columns stmt :
  for_each_column
    (λ column stmt,
       if skip column then (true, stmt) else bind_field bind object column stmt)
    columns stmt
  = bind_sequence bind
      ((λ c, (object, c)) <$> filter (λ c, skip c = false) columns) stmt.
Proof.
  revert stmt. induction columns as [|c columns IH]; intros stmt; [done|].
  simpl. destruct (skip c) eqn:Hskip.
  - rewrite filter_cons_False by congruence. apply IH.
  - rewrite filter_cons_True by done. simpl.
    destruct (bind_field bind object c stmt) as [[] stmt']; [|done].
    apply IH.
Qed.

Lemma std_for_each_bind_sequence {A} (f : A → stmt_t O → bool * stmt_t O)
    (fields : A → list (O * column_t)) range stmt :
  (∀ object stmt, f object stmt = bind_sequence bind (fields object) stmt) →
  std_for_each f range stmt = bind_sequence bind (range ≫= fields) stmt.
Proof.
  intros Hf. revert stmt.
  induction range as [|object range IH]; intros stmt; [done|].
  simpl. rewrite bind_sequence_app, Hf.
  destruct (bind_sequence bind (fields object) stmt) as [[] stmt']; [|done].
  apply IH.
Qed.

Lemma bind_sequence_prefix fields (stmt : stmt_t O) :
  ∃ k : nat,
    (k ≤ length fields)%nat
    ∧ bound (bind_sequence bind fields stmt).2
      = bound stmt ++ numbered (index stmt) (take k fields)
    ∧ ((bind_sequence bind fields stmt).1 = true ↔ k = length fields)
    ∧ (∀ i field, (i < k)%nat → fields !! i = Some field →
         bind (index stmt + Z.of_nat i) field.1 field.2 = true)
    ∧ (∀ field, fields !! k = Some field →
         bind (index stmt + Z.of_nat k) field.1 field.2 = false).
Proof.
  revert stmt. induction fields as [|field fields IH]; intros stmt.
  - exists 0%nat. simpl. rewrite app_nil_r.
    split_and!; [lia|done|done|intros; lia|done].
  - simpl. unfold bind_field.
    destruct (bind (index stmt) field.1 field.2) eqn:Hbind.
    + destruct (IH (mk_stmt (index stmt + 1)
                      (bound stmt ++ [(index stmt, field.1, field.2)])))
        as (k & Hk & Hbound & Hok & Hbefore & Hat).
      simpl in *. exists (S k). split_and!.
      * lia.
      * rewrite Hbound, <- app_assoc. simpl. by rewrite numbered_cons.
      * rewrite Hok. lia.
      * intros [|i] field' Hi Hlookup; simpl in Hlookup.
        -- inversion Hlookup; subst. by rewrite Z.add_0_r.
        -- replace (index stmt + Z.of_nat (S i))
             with (index stmt + 1 + Z.of_nat i) by lia.
           apply Hbefore; [lia|done].
      * intros field' Hlookup. simpl in Hlookup.
        replace (index stmt + Z.of_nat (S k))
          with (index stmt + 1 + Z.of_nat k) by lia.
        by apply Hat.
    + exists 0%nat. simpl. rewrite app_nil_r. split_and!.
      * lia.
      * done.
      * split; [done|lia].
      * intros; lia.
      * intros field' [= <-]. by rewrite Z.add_0_r.
Qed.

Lemma bind_sequence_binds_prefix fields :
  binds_prefix bind fields
    (bind_sequence bind fields (mk_stmt 1 [])).1
    (bind_sequence bind fields (mk_stmt 1 [])).2.
Proof.
  destruct (bind_sequence_prefix fields (mk_stmt 1 []))
    as (k & Hk & Hbound & Hok & Hbefore & Hat).
  by exists k.
Qed.

Lemma replace_process_object_bind_sequence tImpl (object : O) stmt :
  replace_process_object bind tImpl object stmt
  = bind_sequence bind ((λ c, (object, c)) <$> replace_columns tImpl) stmt.
Proof. apply (for_each_column_bind_sequence is_generated). Qed.

Lemma insert_process_object_bind_sequence tImpl (object : O) stmt :
  insert_process_object bind tImpl object stmt
  = bind_sequence bind ((λ c, (object, c)) <$> insert_columns tImpl) stmt.
Proof.
  unfold insert_process_object, insert_columns.
  pose proof (for_each_column_bind_sequence
    (λ c, negb (is_without_rowid tImpl
                || (negb (is_primary_key c) && negb (is_generated c))))
    object (elements tImpl) stmt) as H.
  etrans; [etrans; [|exact H]|].
  - generalize (elements tImpl) stmt. intros columns. 
    induction columns as [|c columns IH]; intros stmt'; [done|].
    simpl. destruct (is_without_rowid tImpl
                     || (negb (is_primary_key c) && negb (is_generated c)));
      simpl.
    + destruct (bind_field bind object c stmt') as [[] stmt'']; [|done].
      apply IH.
    + apply IH.
  - do 2 f_equal. apply list_filter_iff. intros c.
    destruct (is_without_rowid tImpl), (is_primary_key c), (is_generated c);
      simpl; intuition congruence.
Qed.

Lemma binds_prefix_all fields ok (stmt : stmt_t O) :
  binds_prefix bind fields ok stmt → ok = true →
  bound stmt = numbered 1 fields.
Proof.
  intros (k & _ & Hbound & Hok & _) ->.
  rewrite Hbound, (proj1 Hok eq_refl). by rewrite firstn_all.
Qed.

(** X19: [execute] of a replace of a range binds, for the objects in order
    and for each the columns that are not generated in declaration order,
    the field at the indexes 1, 2, ...; it stops at the first field whose
    [bind] fails, and returns exactly when none fails and the step
    succeeds. *)
Theorem execute_replace_range_binds {A} tImpl (transformer : A → O) range :
  let r := execute_replace_range bind perform_step tImpl transformer range in
  let fields :=
    range ≫= (λ object, (λ c, (transformer object, c))
                          <$> replace_columns tImpl) in
  ∃ ok, binds_prefix bind fields ok r.2
        ∧ r.1 = ok && perform_step (numbered 1 fields).
Proof.
  intros r fields. subst r. unfold execute_replace_range.
  rewrite (std_for_each_bind_sequence _
    (λ object, (λ c, (transformer object, c)) <$> replace_columns tImpl))
    by (intros; apply replace_process_object_bind_sequence).
  fold fields. pose proof (bind_sequence_binds_prefix fields) as Hprefix.
  destruct (bind_sequence bind fields (mk_stmt 1 [])) as [ok stmt].
  exists ok. simpl in Hprefix. destruct ok; simpl.
  - split; [done|]. by rewrite (binds_prefix_all _ _ _ Hprefix).
  - done.
Qed.

(** X20: [execute] of an insert of a range binds, for the objects in order,
    every column of a table without rowid and otherwise the columns that
    are neither in the primary key nor generated, at the indexes 1, 2, ...;
    it stops at the first field whose [bind] fails, and returns the last
    inserted row id exactly when none fails and the step succeeds. *)
Theorem execute_insert_range_binds {A} tImpl (transformer : A → O) range :
  let r := execute_insert_range bind perform_step last_insert_rowid
             tImpl transformer range in
  let fields :=
    range ≫= (λ object, (λ c, (transformer object, c))
                          <$> insert_columns tImpl) in
  ∃ ok, binds_prefix bind fields ok r.2
        ∧ r.1 = (if ok && perform_step (numbered 1 fields)
                 then Some (last_insert_rowid (numbered 1 fields))
                 else None).
Proof.
  intros r fields. subst r. unfold execute_insert_range.
  rewrite (std_for_each_bind_sequence _
    (λ object, (λ c, (transformer object, c)) <$> insert_columns tImpl))
    by (intros; apply insert_process_object_bind_sequence).
  fold fields. pose proof (bind_sequence_binds_prefix fields) as Hprefix.
  destruct (bind_sequence bind fields (mk_stmt 1 [])) as [ok stmt].
  exists ok. simpl in Hprefix. destruct ok; simpl.
  - rewrite (binds_prefix_all _ _ _ Hprefix) by done.
    by destruct (perform_step (numbered 1 fields)).
  - done.
Qed.

(** X21: a replace or an insert of one object binds and returns what the
    one of the range holding just that object does. *)
Theorem execute_one_object_as_range tImpl (o : O) :
  execute_replace bind perform_step tImpl o
  = execute_replace_range bind perform_step tImpl id [o]
  ∧ execute_insert bind perform_step last_insert_rowid tImpl o
    = execute_insert_range bind perform_step last_insert_rowid tImpl id [o].
Proof.
  unfold execute_replace, execute_replace_range, execute_insert,
    execute_insert_range. simpl. split.
  - by destruct (replace_process_object bind tImpl o (mk_stmt 1 []))
      as [[] stmt].
  - by destruct (insert_process_object bind tImpl o (mk_stmt 1 []))
      as [[] stmt].
Qed.

Lemma update_set_pass_bind_sequence tImpl (o : O) stmt :
  for_each_column
    (λ column stmt,
       if negb (is_primary_key column) && negb (is_generated column)
       then bind_field bind o column stmt else (true, stmt))
    (elements tImpl) stmt
  = bind_sequence bind ((λ c, (o, c)) <$> update_set_columns tImpl) stmt.
Proof.
  unfold update_set_columns.
  etrans; [|etrans; [exact (for_each_column_bind_sequence
    (λ c, negb (negb (is_primary_key c) && negb (is_generated c)))
    o (elements tImpl) stmt)|]].
  - generalize (elements tImpl). intros columns. revert stmt.
    induction columns as [|c columns IH]; intros stmt; [done|].
    simpl. destruct (negb (is_primary_key c) && negb (is_generated c));
      simpl; [|apply IH].
    destruct (bind_field bind o c stmt) as [[] stmt']; [|done]. apply IH.
  - do 2 f_equal. apply list_filter_iff. intros c.
    destruct (is_primary_key c), (is_generated c); simpl;
      intuition congruence.
Qed.

Lemma update_key_pass_bind_sequence tImpl (o : O) stmt :
  for_each_column
    (λ column stmt,
       if is_primary_key column
       then bind_field bind o column stmt else (true, stmt))
    (elements tImpl) stmt
  = bind_sequence bind ((λ c, (o, c)) <$> update_key_columns tImpl) stmt.
Proof.
  unfold update_key_columns.
  etrans; [|etrans; [exact (for_each_column_bind_sequence
    (λ c, negb (is_primary_key c)) o (elements tImpl) stmt)|]].
  - generalize (elements tImpl). intros columns. revert stmt.
    induction columns as [|c columns IH]; intros stmt; [done|].
    simpl. destruct (is_primary_key c); simpl; [|apply IH].
    destruct (bind_field bind o c stmt) as [[] stmt']; [|done]. apply IH.
  - do 2 f_equal. apply list_filter_iff. intros c.
    destruct (is_primary_key c); simpl; intuition congruence.
Qed.

Lemma bind_sequence_all_ok fields (stmt : stmt_t O) :
  (∀ i field, field ∈ fields → bind i field.1 field.2 = true) →
  bind_sequence bind fields stmt
  = (true, mk_stmt (index stmt + Z.of_nat (length fields))
             (bound stmt ++ numbered (index stmt) fields)).
Proof.
  revert stmt. induction fields as [|field fields IH]; intros stmt Hbind.
  - simpl. rewrite Z.add_0_r, app_nil_r. by destruct stmt.
  - simpl. unfold bind_field.
    rewrite Hbind by (apply elem_of_cons; by left).
    rewrite IH by (intros; apply Hbind; apply elem_of_cons; by right).
    simpl. rewrite numbered_cons, <- app_assoc. simpl. do 2 f_equal. lia.
Qed.

Lemma snd_numbered first (o : O) columns :
  snd <$> numbered first ((λ c, (o, c)) <$> columns) = columns.
Proof.
  revert first. induction columns as [|c columns IH]; intros first; [done|].
  rewrite fmap_cons, numbered_cons. simpl. by rewrite IH.
Qed.

Lemma update_columns_replace_columns tImpl :
  (∀ c, c ∈ elements tImpl → is_primary_key c = true →
        is_generated c = false) →
  update_set_columns tImpl ++ update_key_columns tImpl
  ≡ₚ replace_columns tImpl.
Proof.
  unfold update_set_columns, update_key_columns, replace_columns.
  generalize (elements tImpl). intros columns.
  induction columns as [|c columns IH]; intros Hkey; [done|].
  assert (filter (λ c, is_primary_key c = false ∧ is_generated c = false)
            columns
          ++ filter (λ c, is_primary_key c = true) columns
          ≡ₚ filter (λ c, is_generated c = false) columns) as IH'.
  { apply IH. intros c' Hc'. apply Hkey. apply elem_of_cons. by right. }
  assert (is_primary_key c = true → is_generated c = false) as Hc
    by (apply Hkey, elem_of_cons; by left).
  destruct (is_primary_key c) eqn:Hpk, (is_generated c) eqn:Hgen.
  - by specialize (Hc eq_refl).
  - rewrite (filter_cons_False _ c) by (rewrite Hpk; intros [? _]; done).
    rewrite (filter_cons_True (λ c, is_primary_key c = true)) by done.
    rewrite (filter_cons_True (λ c, is_generated c = false)) by done.
    by rewrite <- Permutation_middle, IH'.
  - rewrite (filter_cons_False _ c) by (rewrite Hgen; intros [_ ?]; done).
    rewrite (filter_cons_False (λ c, is_primary_key c = true))
      by (rewrite Hpk; done).
    rewrite (filter_cons_False (λ c, is_generated c = false))
      by (rewrite Hgen; done).
    done.
  - rewrite (filter_cons_True _ c) by done.
    rewrite (filter_cons_False (λ c, is_primary_key c = true))
      by (rewrite Hpk; done).
    rewrite (filter_cons_True (λ c, is_generated c = false)) by done.
    simpl. by rewrite IH'.
Qed.

(** X22: [execute] of an update binds the columns that are neither in the
    primary key nor generated in declaration order, then the columns of the
    primary key, at the indexes 1, 2, ... without a gap between the two;
    it stops at the first field whose [bind] fails, and returns exactly
    when none fails and the step succeeds. *)
Theorem execute_update_binds tImpl (o : O) :
  let r := execute_update bind perform_step tImpl o in
  let fields :=
    (λ c, (o, c)) <$> (update_set_columns tImpl ++ update_key_columns tImpl) in
  ∃ ok, binds_prefix bind fields ok r.2
        ∧ r.1 = ok && perform_step (numbered 1 fields).
Proof.
  intros r fields. subst r. unfold execute_update.
  pose proof (bind_sequence_binds_prefix fields) as Hprefix.
  unfold fields in Hprefix at 2 3.
  rewrite fmap_app, bind_sequence_app in Hprefix.
  rewrite update_set_pass_bind_sequence.
  destruct (bind_sequence bind ((λ c, (o, c)) <$> update_set_columns tImpl)
              (mk_stmt 1 [])) as [[] stmt]; simpl.
  - rewrite update_key_pass_bind_sequence.
    destruct (bind_sequence bind ((λ c, (o, c)) <$> update_key_columns tImpl)
                stmt) as [ok stmt']; simpl in *.
    exists ok. destruct ok; simpl; [|done].
    split; [done|]. by rewrite (binds_prefix_all _ _ _ Hprefix).
  - by exists false.
Qed.

(** X23: on a table with rowid, whatever [bind] does, the parameters an
    insert of an object binds are the first ones an update of that object
    binds, at the same indexes. *)
Theorem execute_update_extends_insert tImpl (o : O) :
  is_without_rowid tImpl = false →
  bound (execute_insert bind perform_step last_insert_rowid tImpl o).2
  `prefix_of` bound (execute_update bind perform_step tImpl o).2.
Proof.
  intros Hrowid. unfold execute_insert, execute_update, insert_process_object.
  rewrite Hrowid. simpl.
  destruct (for_each_column _ (elements tImpl) (mk_stmt 1 []))
    as [ok stmt] eqn:Hfirst.
  destruct ok; simpl.
  - assert (bound stmt `prefix_of`
            bound (for_each_column
                     (λ column stmt,
                        if is_primary_key column
                        then bind_field bind o column stmt else (true, stmt))
                     (elements tImpl) stmt).2) as Hprefix.
    { clear Hfirst. generalize (elements tImpl). intros columns. revert stmt.
      induction columns as [|c columns IH]; intros stmt; [done|].
      simpl. destruct (is_primary_key c); [|apply IH].
      unfold bind_field. destruct (bind (index stmt) o c); simpl; [|done].
      etrans; [|apply IH]. simpl. by apply prefix_app_r. }
    destruct (for_each_column _ (elements tImpl) stmt) as [[] stmt'];
      simpl in *.
    + by destruct (perform_step (bound stmt)).
    + by destruct (perform_step (bound stmt)).
  - done.
Qed.

(** X24: when every [bind] succeeds and no column of the primary key is
    generated, an update binds the fields of the very columns a replace
    binds, each once: the key columns moved behind the others. *)
Theorem execute_update_binds_replace_columns tImpl (o : O) :
  (∀ i c, bind i o c = true) →
  (∀ c, c ∈ elements tImpl → is_primary_key c = true →
        is_generated c = false) →
  snd <$> bound (execute_update bind perform_step tImpl o).2
  ≡ₚ snd <$> bound (execute_replace bind perform_step tImpl o).2.
Proof.
  intros Hbind Hkey.
  unfold execute_update, execute_replace.
  rewrite update_set_pass_bind_sequence, replace_process_object_bind_sequence.
  rewrite !bind_sequence_all_ok
    by (intros i field (c & -> & _)%list_elem_of_fmap; apply Hbind).
  simpl. rewrite update_key_pass_bind_sequence.
  rewrite bind_sequence_all_ok
    by (intros i field (c & -> & _)%list_elem_of_fmap; apply Hbind).
  simpl. rewrite fmap_app, !snd_numbered.
  by apply update_columns_replace_columns.
Qed.

End execute_properties.

(** ** The further properties on the example storages *)

Lemma schema_status_new_table_created_iff_witness :
  (schema_status true calculate_remove_add_columns users empty_database
     true None).1 = new_table_created.
Proof.
  apply (proj2 (schema_status_new_table_created_iff true
                  calculate_remove_add_columns users empty_database
                  true None)).
  by_computation.
Defined.

Lemma schema_status_already_in_sync_iff_witness :
  (schema_status true calculate_remove_add_columns users synced_database
     true None).1 = already_in_sync.
Proof.
  apply (proj2 (schema_status_already_in_sync_iff true
                  calculate_remove_add_columns users synced_database
                  true None false [] [] ltac:(by_computation))).
  split_and!; by_computation.
Defined.

Lemma schema_status_column_differs_witness :
  schema_status true calculate_remove_add_columns users retyped_database
    true (Some false)
  = (dropped_and_recreated, Some true).
Proof.
  apply (schema_status_column_differs true calculate_remove_add_columns
           users retyped_database true (Some false) [] []);
    by_computation.
Defined.

Lemma schema_status_preserve_irrelevant_witness :
  schema_status true calculate_remove_add_columns users legacy_database
    true None
  = schema_status true calculate_remove_add_columns users legacy_database
      false None.
Proof.
  apply (schema_status_preserve_irrelevant true calculate_remove_add_columns
           users legacy_database None false []
           [column_info legacy_column]);
    [by_computation|by left].
Defined.

Lemma schema_status_flag_cleared_witness :
  (schema_status true calculate_remove_add_columns users old_database true
     (Some true)).1 = dropped_and_recreated
  ∧ ∃ c, c ∈ [column_info name_column; column_info age_column]
         ∧ cannot_be_added_not_null users c.
Proof.
  destruct (schema_status_flag_cleared true calculate_remove_add_columns
              users old_database true true false
              [column_info name_column; column_info age_column] [])
    as (Hstatus & _ & _ & Hcolumn); [by_computation|by_computation|].
  by split.
Defined.

Lemma schema_status_altered_in_place_iff_witness :
  (schema_status true calculate_remove_add_columns users legacy_database
     true None).1 = old_columns_removed.
Proof.
  destruct (schema_status_altered_in_place_iff true
              calculate_remove_add_columns users legacy_database true None
              [] [column_info legacy_column])
    as (_ & Hremoved & _); [by_computation|by_computation|].
  apply Hremoved. split_and!; [done|done|by left].
Defined.

Lemma schema_status_flag_initialised_witness :
  schema_status true calculate_remove_add_columns users old_database true
    (Some true)
  = schema_status true calculate_remove_add_columns users old_database true
      (Some false).
Proof.
  apply (schema_status_flag_initialised true calculate_remove_add_columns
           users old_database true true false).
Defined.

Lemma add_generated_cols_appends_hidden_witness :
  add_generated_cols [column_info name_column]
    (get_table_info invoices)
  = [column_info name_column]
    ++ filter (λ i, hidden i = true) (get_table_info invoices).
Proof.
  apply (add_generated_cols_appends_hidden [column_info name_column]
           (get_table_info invoices)).
Defined.

Lemma drop_create_with_loss_cases_witness :
  drop_create_with_loss users empty_database
  = (Throw (sqlite_error (DropTable "users")), empty_database).
Proof.
  apply (proj2 (drop_create_with_loss_cases users empty_database)).
  by_computation.
Defined.

Lemma backup_table_missing_table_witness :
  ∃ backupTableName,
    backup_table_name empty_database "users" = Some backupTableName
    ∧ (backup_table users [] empty_database).1
      = Throw (sqlite_error
                 (InsertSelect backupTableName "users"
                    (copy_column_names users [] []))).
Proof.
  destruct (backup_table_missing_table users [] empty_database)
    as (backupTableName & Hname & Hrun & _); [by_computation|].
  exists backupTableName. split; [done|]. by rewrite Hrun.
Defined.

Lemma backup_table_and_loss_same_tables_witness :
  tables (backup_table users [] legacy_database).2
  = tables (drop_create_with_loss users legacy_database).2.
Proof.
  apply (backup_table_and_loss_same_tables users [] legacy_database
           (backup_table users [] legacy_database).2
           (drop_create_with_loss users legacy_database).2);
    by_computation.
Defined.

Lemma sync_schema_leaves_the_rest_witness :
  user_version (sync_schema true [users] true legacy_database).2
  = user_version legacy_database.
Proof.
  apply (proj1 (sync_schema_leaves_the_rest true [users] true
                  legacy_database)).
Defined.


Lemma sync_schema_simulate_entries_witness :
  ∃ m, sync_schema_simulate true [invoices; users] true old_database
       = (Ok m, old_database)
       ∧ m !! "users"
         = Some (schema_status true calculate_remove_add_columns users
                   old_database true None).1.
Proof.
  destruct (sync_schema_simulate_entries true [users; invoices]
              [invoices; users] true old_database)
    as (m & Hrun & _ & _ & Hm); [apply perm_swap|].
  exists m. split; [done|].
  apply (Hm ltac:(decide_by_computation) users).
  apply elem_of_cons. by left.
Defined.

Lemma tablename_rename_table_witness :
  mapped.tablename 0 (mapped.rename_table 0 "people" [users; invoices])
  = Some "people".
Proof.
  apply (tablename_rename_table 0 1 "people" [users; invoices] users).
  reflexivity.
Defined.

Lemma rename_table_then_sync_schema_witness :
  ∃ m d',
    sync_schema true (mapped.rename_table 0 "people" [users]) true
      legacy_database = (Ok m, d')
    ∧ m !! "people" = Some new_table_created
    ∧ tables d' !! "users" = tables legacy_database !! "users".
Proof.
  pose (r := sync_schema true (mapped.rename_table 0 "people" [users]) true
               legacy_database).
  exists (match r.1 with Ok m => m | Throw _ => ∅ end), r.2.
  split; [by_computation|].
  destruct (rename_table_then_sync_schema true 0 "people" [users] users true
              legacy_database
              (match r.1 with Ok m => m | Throw _ => ∅ end) r.2)
    as (Hm & _ & _ & Hkept);
    [reflexivity|decide_by_computation|decide_by_computation
    |by_computation|by_computation|].
  by split.
Defined.

Lemma register_migrations_last_wins_witness :
  db (register_migrations [(0, 1, drop_legacy); (0, 1, create_invoices)]
        example_storage)
  = db example_storage.
Proof.
  apply (proj2 (register_migrations_last_wins
                  [(0, 1, drop_legacy); (0, 1, create_invoices)]
                  example_storage (0, 1))).
Defined.

Lemma migrate_to_leaves_version_to_migration_witness :
  migrate_to 1 example_storage
  = (Ok tt,
     mk_storage (filename example_storage) (migrations example_storage)
       (drop_legacy (mk_connection_container "db.sqlite")
          legacy_database).2).
Proof.
  apply (migrate_to_leaves_version_to_migration 1 example_storage
           drop_legacy
           (drop_legacy (mk_connection_container "db.sqlite")
              legacy_database).2);
    by_computation.
Defined.

Lemma execute_replace_range_binds_witness :
  ∃ ok,
    binds_prefix binds_all
      (["a"; "b"] ≫= (λ object, (λ c, (id object, c))
                                  <$> replace_columns invoices))
      ok (execute_replace_range binds_all steps invoices id ["a"; "b"]).2.
Proof.
  destruct (execute_replace_range_binds binds_all steps invoices id
              ["a"; "b"]) as (ok & Hprefix & _).
  by exists ok.
Defined.

Lemma execute_insert_range_binds_witness :
  ∃ ok,
    binds_prefix binds_all
      (["a"; "b"] ≫= (λ object, (λ c, (id object, c))
                                  <$> insert_columns users))
      ok (execute_insert_range binds_all steps first_rowid users id
            ["a"; "b"]).2.
Proof.
  destruct (execute_insert_range_binds binds_all steps first_rowid users id
              ["a"; "b"]) as (ok & Hprefix & _).
  by exists ok.
Defined.

Lemma execute_one_object_as_range_witness :
  execute_replace binds_all steps users "a"
  = execute_replace_range binds_all steps users id ["a"].
Proof.
  apply (proj1 (execute_one_object_as_range binds_all steps first_rowid
                  users "a")).
Defined.

Lemma execute_update_binds_witness :
  ∃ ok,
    binds_prefix binds_all
      ((λ c, ("a", c))
         <$> (update_set_columns users ++ update_key_columns users))
      ok (execute_update binds_all steps users "a").2.
Proof.
  destruct (execute_update_binds binds_all steps users "a")
    as (ok & Hprefix & _).
  by exists ok.
Defined.

Lemma execute_update_extends_insert_witness :
  bound (execute_insert binds_all steps first_rowid users "a").2
  `prefix_of` bound (execute_update binds_all steps users "a").2.
Proof.
  apply (execute_update_extends_insert binds_all steps first_rowid users "a").
  reflexivity.
Defined.

Lemma execute_update_binds_replace_columns_witness :
  snd <$> bound (execute_update binds_all steps users "a").2
  ≡ₚ snd <$> bound (execute_replace binds_all steps users "a").2.
Proof.
  apply (execute_update_binds_replace_columns binds_all steps users "a").
  - reflexivity.
  - intros c Hc _. repeat (apply elem_of_cons in Hc as [->|Hc]);
      [by_computation..|by apply elem_of_nil in Hc].
Defined.
